(** * ChainHash: a separate-chaining hash table, and the bag-of-words client

    A shallow embedding of [src/chainhash.h] and [src/p2.cpp].

    - A chain (the singly linked [ChainHashNode] list of one bucket) is a
      list of key/value pairs, head first.
    - [Node** array] and [int* bucket_sizes] are lists indexed by bucket.
    - [std::hash<TK>] is a parameter [hash : K -> Z]; [operator==] on keys
      is decidable equality.
    - The capacity computation of [rehashing], which the source guards
      against wrap-around, is taken in 32-bit two's complement.  The
      counters [nsize], [usedBuckets] and [bucket_sizes[i]] count live
      nodes and are kept in [Z].
    - [fillFactor() > maxFillFactor] compares a binary64 quotient with a
      binary32 constant; both are computed with [SpecFloat].
    - A C++ exception is a [Throw] result next to the state the object is
      left in.
    - [begin(i)] .. [end(i)] is the list of the nodes the iterator visits.
    - [cout] is the string written to it; the iteration order of
      [unordered_set] is a parameter. *)

From Stdlib Require Import ZArith List Lia SpecFloat String Ascii Sorted.
From stdpp Require Import base decidable numbers list strings pretty.

Local Open Scope Z_scope.

Set Warnings "-clear-no-such-hyp".

(** ** 32-bit [int] *)

Definition INT_MIN : Z := - 2 ^ 31.
Definition INT_MAX : Z := 2 ^ 31 - 1.

Definition in_int (z : Z) : Prop := INT_MIN ≤ z ≤ INT_MAX.

Definition wrap32 (z : Z) : Z := (z + 2 ^ 31) `mod` 2 ^ 32 - 2 ^ 31.

(** ** Exceptions *)

Inductive exn : Set :=
| out_of_range
| bad_array_new_length.

Inductive result (A : Type) : Type :=
| Ret (a : A)
| Throw (e : exn).
Arguments Ret {A} a.
Arguments Throw {A} e.

(** ** binary64 and binary32 *)

Module Float.

Definition to_double (z : Z) : spec_float := binary_normalize 53 1024 z 0 false.

Definition convert (prec emax : Z) (x : spec_float) : spec_float :=
  match x with
  | S754_finite s m e => binary_round prec emax s m e
  | _ => x
  end.

(** The literal [0.8], a double. *)
Definition lit_0_8 : spec_float := SFdiv 53 1024 (to_double 8) (to_double 10).

(** [(double)a / (double)b] for two [int]s. *)
Definition ratio (a b : Z) : spec_float := SFdiv 53 1024 (to_double a) (to_double b).

(** A [float] promoted to [double]. *)
Definition of_float (x : spec_float) : spec_float := convert 53 1024 x.

(** [x > y] on doubles. *)
Definition gt (x y : spec_float) : bool := SFltb y x.

End Float.

Arguments Float.to_double : simpl never.
Arguments Float.of_float : simpl never.
Arguments Float.ratio : simpl never.
Arguments Float.gt : simpl never.

(** [const int maxColision = 3;] *)
Definition maxColision : Z := 3.

(** [const float maxFillFactor = 0.8;] *)
Definition maxFillFactor : spec_float := Float.convert 24 128 Float.lit_0_8.

(** ** Counting over the bucket array *)

Definition sumZ (l : list Z) : Z := foldr Z.add 0 l.

(** The number of entries of [l] that are greater than 0. *)
Definition count_pos (l : list Z) : Z := Z.of_nat (length (filter (λ n, 0 < n) l)).

Definition lengths {A} (ls : list (list A)) : list Z := (λ l, Z.of_nat (length l)) <$> ls.

(** ** The table *)

Module ChainHash.
Section ChainHash.

Context {K V : Type} `{EqDecision K}.
Variable hash : K → Z.

(** A node is its key and value; [next] is the rest of the list. *)
Local Abbreviation Node := (K * V)%type.
Local Abbreviation chain := (list (K * V)).

Record t : Type := mk {
  array : list chain;
  nsize : Z;
  capacity : Z;
  bucket_sizes : list Z;
  usedBuckets : Z;
}.

(** [ChainHash(int initialCapacity = 10)] *)
Definition new (initialCapacity : Z) : t :=
  let initialCapacity := if initialCapacity <=? 0 then 10 else initialCapacity in
  {| array := replicate (Z.to_nat initialCapacity) [];
     nsize := 0;
     capacity := initialCapacity;
     bucket_sizes := replicate (Z.to_nat initialCapacity) 0;
     usedBuckets := 0 |}.

Definition getHashCode (key : K) : Z := hash key.

(** [hashcode % capacity]; the capacity of a table is positive, so that its
    conversion to [size_t] leaves it as it is. *)
Definition index_of (c : t) (key : K) : nat :=
  Z.to_nat (getHashCode key `mod` capacity c).

(** [array[index]] *)
Definition bucket (c : t) (index : nat) : chain := array c !!! index.

(** The scan of [get]. *)
Fixpoint chain_get (key : K) (current : chain) : option V :=
  match current with
  | [] => None
  | (k, v) :: next => if decide (k = key) then Some v else chain_get key next
  end.

Definition get (c : t) (key : K) : result V :=
  match chain_get key (bucket c (index_of c key)) with
  | Some v => Ret v
  | None => Throw out_of_range
  end.

Definition size (c : t) : Z := nsize c.

Definition bucket_count (c : t) : Z := capacity c.

Definition bucket_size (c : t) (index : Z) : result Z :=
  if (index <? 0) || (capacity c <=? index) then Throw out_of_range
  else Ret (bucket_sizes c !!! Z.to_nat index).

(** The scan of [contains]. *)
Fixpoint chain_contains (key : K) (current : chain) : bool :=
  match current with
  | [] => false
  | (k, _) :: next => if decide (k = key) then true else chain_contains key next
  end.

Definition contains (c : t) (key : K) : bool :=
  chain_contains key (bucket c (index_of c key)).

(** [begin(index)] .. [end(index)]: the nodes the iterator visits. *)
Definition iterate (c : t) (index : Z) : result chain :=
  if (index <? 0) || (capacity c <=? index) then Throw out_of_range
  else Ret (bucket c (Z.to_nat index)).

(** [fillFactor()] *)
Definition fillFactor (c : t) : spec_float := Float.ratio (usedBuckets c) (capacity c).

(** One iteration of the inner loop of [rehashing]: the node is pushed on
    the front of its new bucket. *)
Definition rehash_node (newCap : Z) (st : list chain * list Z * Z) (node : Node)
  : list chain * list Z * Z :=
  let '(newArray, new_bucket_sizes, newUsedBuckets) := st in
  let idx := Z.to_nat (getHashCode node.1 `mod` newCap) in
  (<[idx := node :: newArray !!! idx]> newArray,
   <[idx := new_bucket_sizes !!! idx + 1]> new_bucket_sizes,
   if new_bucket_sizes !!! idx =? 0 then newUsedBuckets + 1 else newUsedBuckets).

Definition rehashing (c : t) : t * result () :=
  let oldCap := capacity c in
  let newCap := wrap32 (oldCap * 2 + 1) in
  let newCap := if newCap <=? oldCap then wrap32 (oldCap + 1) else newCap in
  if newCap <? 0 then (c, Throw bad_array_new_length)
  else
    let '(newArray, new_bucket_sizes, newUsedBuckets) :=
      fold_left (λ st nodes, fold_left (rehash_node newCap) nodes st)
        (take (Z.to_nat oldCap) (array c))
        (replicate (Z.to_nat newCap) [], replicate (Z.to_nat newCap) 0, 0) in
    ({| array := newArray;
        nsize := nsize c;
        capacity := newCap;
        bucket_sizes := new_bucket_sizes;
        usedBuckets := newUsedBuckets |}, Ret ()).

(** The scan of [set]: [Some] is the chain with the value overwritten in
    place, [None] means that the chain was exhausted. *)
Fixpoint chain_set (key : K) (value : V) (current : chain) : option chain :=
  match current with
  | [] => None
  | (k, v) :: next =>
      if decide (k = key) then Some ((k, value) :: next)
      else cons (k, v) <$> chain_set key value next
  end.

(** [set] after its scan found no node: the new head, the counters. *)
Definition push_front (c : t) (key : K) (value : V) : t :=
  let index := index_of c key in
  {| array := <[index := (key, value) :: bucket c index]> (array c);
     nsize := nsize c + 1;
     capacity := capacity c;
     bucket_sizes := <[index := bucket_sizes c !!! index + 1]> (bucket_sizes c);
     usedBuckets :=
       if bucket_sizes c !!! index =? 0 then usedBuckets c + 1 else usedBuckets c |}.

(** The test that ends [set]. *)
Definition overloaded (c : t) (index : nat) : bool :=
  (maxColision <? bucket_sizes c !!! index)
  || Float.gt (fillFactor c) (Float.of_float maxFillFactor).

Definition set (c : t) (key : K) (value : V) : t * result () :=
  let index := index_of c key in
  match chain_set key value (bucket c index) with
  | Some updated =>
      ({| array := <[index := updated]> (array c);
          nsize := nsize c;
          capacity := capacity c;
          bucket_sizes := bucket_sizes c;
          usedBuckets := usedBuckets c |}, Ret ())
  | None =>
      let c := push_front c key value in
      if overloaded c index then rehashing c else (c, Ret ())
  end.

(** The scan of [remove]: [Some] is the chain with the node unlinked. *)
Fixpoint chain_remove (key : K) (current : chain) : option chain :=
  match current with
  | [] => None
  | (k, v) :: next =>
      if decide (k = key) then Some next
      else cons (k, v) <$> chain_remove key next
  end.

Definition remove (c : t) (key : K) : t * bool :=
  let index := index_of c key in
  match chain_remove key (bucket c index) with
  | Some unlinked =>
      let n := bucket_sizes c !!! index - 1 in
      ({| array := <[index := unlinked]> (array c);
          nsize := nsize c - 1;
          capacity := capacity c;
          bucket_sizes := <[index := n]> (bucket_sizes c);
          usedBuckets := if n =? 0 then usedBuckets c - 1 else usedBuckets c |}, true)
  | None => (c, false)
  end.

(** *** What a table is *)

(** All nodes, bucket after bucket. *)
Definition entries (c : t) : list Node := mjoin (array c).

(** Every node of bucket [i] hashes to [i]. *)
Definition placed (cap : Z) (a : list chain) : Prop :=
  Forall (λ p, Forall (λ n : Node, Z.to_nat (getHashCode n.1 `mod` cap) = p.1) p.2)
    (imap pair a).

(** The representation invariant: the capacity is a positive [int] and the
    length of both arrays, the counters agree with the chains, nodes are in
    the bucket of their hash, and no key occurs twice. *)
Definition wf (c : t) : Prop :=
  0 < capacity c ≤ INT_MAX
  ∧ length (array c) = Z.to_nat (capacity c)
  ∧ bucket_sizes c = lengths (array c)
  ∧ usedBuckets c = count_pos (bucket_sizes c)
  ∧ nsize c = Z.of_nat (length (entries c))
  ∧ placed (capacity c) (array c)
  ∧ NoDup (entries c).*1.

#[global] Instance wf_dec c : Decision (wf c).
Proof. unfold wf, placed. apply _. Defined.

(** *** Sequences of calls *)

Inductive op : Type :=
| Set_ (key : K) (value : V)
| Remove (key : K).

Definition step (c : t) (o : op) : t :=
  match o with
  | Set_ key value => (set c key value).1
  | Remove key => (remove c key).1
  end.

Definition run (ops : list op) (c : t) : t := fold_left step ops c.

(** What a map holds for [key] after the calls [ops], the last call on the
    key deciding. *)
Definition lookup_after (ops : list op) (key : K) : option V :=
  fold_left
    (λ held o,
       match o with
       | Set_ k value => if decide (k = key) then Some value else held
       | Remove k => if decide (k = key) then None else held
       end)
    ops None.


(** The tables a program can hold: built by the constructor from an [int],
    then changed by [set] and [remove] only. *)
Inductive reachable : t → Prop :=
| reachable_new initialCapacity : in_int initialCapacity → reachable (new initialCapacity)
| reachable_step c o : reachable c → reachable (step c o).

End ChainHash.
End ChainHash.


(** ** The bag of words ([p2.cpp]) *)

Module P2.

(** [isspace], [isalnum] and [tolower] of the "C" locale.  A byte above 127
    (a [char] below 0) is neither a space nor alphanumeric. *)
Definition isspace (c : ascii) : bool :=
  let n := nat_of_ascii c in
  ((n =? 32) || ((9 <=? n) && (n <=? 13)))%nat.

Definition isalnum (c : ascii) : bool :=
  let n := nat_of_ascii c in
  (((48 <=? n) && (n <=? 57)) || ((65 <=? n) && (n <=? 90)) || ((97 <=? n) && (n <=? 122)))%nat.

Definition tolower (c : ascii) : ascii :=
  let n := nat_of_ascii c in
  if ((65 <=? n) && (n <=? 90))%nat then ascii_of_nat (n + 32) else c.

(** [transform(str.begin(), str.end(), str.begin(), ::tolower)] *)
Fixpoint toLowerCase (str : string) : string :=
  match str with
  | EmptyString => EmptyString
  | String c rest => String (tolower c) (toLowerCase rest)
  end.

(** [while (ss >> word)]: the runs of characters between white space, [word]
    being the run that is read. *)
Fixpoint extract (text : string) (word : string) : list string :=
  match text with
  | EmptyString => match word with EmptyString => [] | _ => [word] end
  | String c rest =>
      if isspace c then
        match word with
        | EmptyString => extract rest EmptyString
        | _ => word :: extract rest EmptyString
        end
      else extract rest (word ++ String c EmptyString)
  end.

(** [word.erase(remove_if(.., !isalnum), word.end())] *)
Fixpoint erase_not_alnum (word : string) : string :=
  match word with
  | EmptyString => EmptyString
  | String c rest =>
      if isalnum c then String c (erase_not_alnum rest) else erase_not_alnum rest
  end.

Definition tokenize (text : string) : list string :=
  flat_map
    (λ word,
       match erase_not_alnum word with
       | EmptyString => []
       | word => [toLowerCase word]
       end)
    (extract text EmptyString).

Section bagOfWords.

(** [std::hash<string>]. *)
Variable hash : string → Z.

(** The words of [unordered_set<string> uniqueWords(tokens.begin(),
    tokens.end())] in the order in which the set is iterated. *)
Variable uniqueWords : list string → list string.

Local Abbreviation table := (@ChainHash.t string (list Z)).

(** The body of the inner loop; an exception ends the function. *)
Definition add_word (docIndex : Z) (acc : result table) (word : string) : result table :=
  match acc with
  | Throw e => Throw e
  | Ret result =>
      if ChainHash.contains hash result word then
        match ChainHash.get hash result word with
        | Throw e => Throw e
        | Ret docs =>
            let docs := docs ++ [wrap32 docIndex] in
            match ChainHash.set hash result word docs with
            | (result, Ret _) => Ret result
            | (_, Throw e) => Throw e
            end
        end
      else
        let docs := [] ++ [wrap32 docIndex] in
        match ChainHash.set hash result word docs with
        | (result, Ret _) => Ret result
        | (_, Throw e) => Throw e
        end
  end.

(** The body of the outer loop. *)
Definition add_document (docIndex : Z) (acc : result table) (documento : string)
  : result table :=
  fold_left (add_word docIndex) (uniqueWords (tokenize documento)) acc.

(** The outer loop from [docIndex] on. *)
Fixpoint add_documents (docIndex : Z) (documentos : list string) (acc : result table)
  : result table :=
  match documentos with
  | [] => acc
  | documento :: rest =>
      add_documents (docIndex + 1) rest (add_document docIndex acc documento)
  end.

Definition bagOfWords (documentos : list string) : result table :=
  add_documents 0 documentos (Ret (ChainHash.new 13)).

End bagOfWords.

(** *** [printBagOfWords] *)

Definition quote : string := String "034"%char EmptyString.
Definition newline : string := String "010"%char EmptyString.

(** The inner loop: [cout << docs[j]] for every [j], and [", "] after each
    one but the last. *)
Fixpoint print_docs (docs : list Z) : string :=
  match docs with
  | [] => EmptyString
  | [d] => pretty d
  | d :: rest => pretty d +:+ ", " +:+ print_docs rest
  end.

(** What is written for one node: its key between quotes, its list between
    brackets. *)
Definition print_node (node : string * list Z) : string :=
  " " +:+ quote +:+ node.1 +:+ quote +:+ ": [" +:+ print_docs node.2 +:+ "]," +:+ newline.

(** The body of the loop over the buckets, [out] being what [cout] has
    received; an exception of [bucket_size] or [begin] ends the function. *)
Definition print_bucket (bow : @ChainHash.t string (list Z)) (out : result string) (i : Z)
  : result string :=
  match out with
  | Throw e => Throw e
  | Ret out =>
      match ChainHash.bucket_size bow i with
      | Throw e => Throw e
      | Ret n =>
          if 0 <? n then
            match ChainHash.iterate bow i with
            | Throw e => Throw e
            | Ret nodes => Ret (fold_left (λ out node, out +:+ print_node node) nodes out)
            end
          else Ret out
      end
  end.

Definition printBagOfWords (bow : @ChainHash.t string (list Z)) : result string :=
  match
    fold_left (print_bucket bow) (seqZ 0 (ChainHash.bucket_count bow)) (Ret ("{" +:+ newline))
  with
  | Throw e => Throw e
  | Ret out => Ret (out +:+ "}" +:+ newline)
  end.

(** The documents of [main]. *)
Definition documentos : list string :=
  ["La casa es grande"; "El gato está en la casa";
   "La casa es bonita y grande"; "El sol brilla sobre la casa"]%string.

(** The index of a word, as the specification describes it: the positions,
    counted from [docIndex], of the documents that hold the word, in
    order. *)
Fixpoint postings (docIndex : Z) (documentos : list string) (word : string) : list Z :=
  match documentos with
  | [] => []
  | documento :: rest =>
      (if decide (word ∈ tokenize documento) then [docIndex] else [])
      ++ postings (docIndex + 1) rest word
  end.

(** A hash of strings to run the program with. *)
Definition hash_bytes (s : string) : Z :=
  fold_left (λ h c, (h * 33 + Z.of_nat (nat_of_ascii c)) `mod` 2 ^ 64)
    (list_ascii_of_string s) 5381.

End P2.

(** ** Facts on [int] *)

Lemma wrap32_small z : in_int z → wrap32 z = z.
Proof.
  unfold in_int, INT_MIN, INT_MAX, wrap32. intros Hz.
  rewrite Z.mod_small by lia. lia.
Qed.

Lemma wrap32_over z : INT_MAX < z ≤ INT_MAX + 2 ^ 32 → wrap32 z = z - 2 ^ 32.
Proof.
  unfold INT_MAX, wrap32. intros Hz.
  replace (z + 2 ^ 31) with (z + 2 ^ 31 - 2 ^ 32 + 1 * 2 ^ 32) by lia.
  rewrite Z_mod_plus_full, Z.mod_small by lia. lia.
Qed.

Lemma wrap32_in_int z : in_int (wrap32 z).
Proof.
  unfold in_int, INT_MIN, INT_MAX, wrap32.
  pose proof (Z.mod_pos_bound (z + 2 ^ 31) (2 ^ 32)). lia.
Qed.

(** ** Facts on lists used as arrays *)

Section array_facts.
Context {A : Type}.
Implicit Types (l : list A) (ls : list (list A)) (S : list Z).

Lemma lookup_total_Some `{Inhabited B} (xs : list B) i x :
  xs !! i = Some x → xs !!! i = x.
Proof. intros Hx. by rewrite list_lookup_total_alt, Hx. Qed.

Lemma insert_split {B} (xs : list B) i x y :
  xs !! i = Some x →
  ∃ pre post, xs = pre ++ x :: post ∧ <[i:=y]> xs = pre ++ y :: post.
Proof.
  intros Hx. exists (take i xs), (drop (S i) xs). split.
  - by rewrite take_drop_middle.
  - apply insert_take_drop. by eapply lookup_lt_Some.
Qed.

Lemma join_insert_split ls i l l' :
  ls !! i = Some l →
  ∃ pre post, mjoin ls = pre ++ l ++ post ∧ mjoin (<[i:=l']> ls) = pre ++ l' ++ post.
Proof.
  intros Hl. destruct (insert_split ls i l l' Hl) as (pre & post & -> & ->).
  exists (mjoin pre), (mjoin post). by rewrite !join_app.
Qed.

Lemma sumZ_app S1 S2 : sumZ (S1 ++ S2) = sumZ S1 + sumZ S2.
Proof. unfold sumZ. induction S1 as [|x S1 IH]; simpl; lia. Qed.

Lemma sumZ_insert S i x y : S !! i = Some x → sumZ (<[i:=y]> S) = sumZ S - x + y.
Proof.
  intros Hx. destruct (insert_split S i x y Hx) as (pre & post & -> & ->).
  rewrite !sumZ_app. unfold sumZ. simpl. lia.
Qed.

Lemma count_pos_app S1 S2 : count_pos (S1 ++ S2) = count_pos S1 + count_pos S2.
Proof. unfold count_pos. rewrite filter_app, length_app. lia. Qed.

Lemma count_pos_cons x S :
  count_pos (x :: S) = (if 0 <? x then 1 else 0) + count_pos S.
Proof.
  unfold count_pos. rewrite filter_cons.
  destruct (Z.ltb_spec 0 x); case_decide; simpl; lia.
Qed.

Lemma count_pos_insert S i x y :
  S !! i = Some x →
  count_pos (<[i:=y]> S)
  = count_pos S - (if 0 <? x then 1 else 0) + (if 0 <? y then 1 else 0).
Proof.
  intros Hx. destruct (insert_split S i x y Hx) as (pre & post & -> & ->).
  rewrite !count_pos_app, !count_pos_cons. lia.
Qed.

Lemma count_pos_bounds S : 0 ≤ count_pos S ≤ Z.of_nat (length S).
Proof.
  unfold count_pos. pose proof (length_filter (λ n : Z, 0 < n) S). lia.
Qed.

Lemma count_pos_replicate n : count_pos (replicate n 0) = 0.
Proof. induction n as [|n IH]; [done|]. simpl. by rewrite count_pos_cons, IH. Qed.

Lemma lengths_insert ls i l :
  lengths (<[i:=l]> ls) = <[i:=Z.of_nat (length l)]> (lengths ls).
Proof. unfold lengths. by rewrite list_fmap_insert. Qed.

Lemma lengths_lookup ls i l :
  ls !! i = Some l → lengths ls !! i = Some (Z.of_nat (length l)).
Proof. intros Hl. unfold lengths. by rewrite list_lookup_fmap, Hl. Qed.

Lemma lengths_replicate n : lengths (replicate n (@nil A)) = replicate n 0.
Proof. unfold lengths. by rewrite fmap_replicate. Qed.


Lemma join_replicate_nil n : mjoin (replicate n (@nil A)) = [].
Proof. induction n as [|n IH]; [done|]. simpl. exact IH. Qed.

Lemma elem_of_join_lookup ls x :
  x ∈ mjoin ls ↔ ∃ i l, ls !! i = Some l ∧ x ∈ l.
Proof.
  rewrite list_elem_of_join. split.
  - intros (l & Hx & Hl). apply list_elem_of_lookup in Hl as [i Hi]. eauto.
  - intros (i & l & Hi & Hx). exists l. split; [done|].
    apply list_elem_of_lookup. eauto.
Qed.

Lemma NoDup_fst_unique {B} (xs : list (A * B)) a b1 b2 :
  NoDup xs.*1 → (a, b1) ∈ xs → (a, b2) ∈ xs → b1 = b2.
Proof.
  induction xs as [|[a' b'] xs IH]; simpl.
  - intros _ Hin. by apply elem_of_nil in Hin.
  - rewrite NoDup_cons, !elem_of_cons. intros [Hnotin Hnd] [H1|H1] [H2|H2].
    + congruence.
    + destruct Hnotin. injection H1 as -> ->.
      apply list_elem_of_fmap. by exists (a', b2).
    + destruct Hnotin. injection H2 as -> ->.
      apply list_elem_of_fmap. by exists (a', b1).
    + by apply IH.
Qed.

End array_facts.

(** ** Facts on doubles *)

Module FloatFacts.

Lemma digits2_pos_bounds p :
  2 ^ (Z.pos (digits2_pos p) - 1) <= Z.pos p < 2 ^ Z.pos (digits2_pos p).
Proof.
  induction p as [p IH|p IH|]; simpl digits2_pos.
  - rewrite Pos2Z.inj_succ, Z.pow_succ_r by lia.
    replace (Z.succ (Z.pos (digits2_pos p)) - 1) with (Z.succ (Z.pos (digits2_pos p) - 1)) by lia.
    rewrite Z.pow_succ_r by lia. lia.
  - rewrite Pos2Z.inj_succ, Z.pow_succ_r by lia.
    replace (Z.succ (Z.pos (digits2_pos p)) - 1) with (Z.succ (Z.pos (digits2_pos p) - 1)) by lia.
    rewrite Z.pow_succ_r by lia. lia.
  - simpl. lia.
Qed.

Lemma Zdigits2_unique q d :
  2 ^ (d - 1) <= q < 2 ^ d -> 0 < d -> Zdigits2 q = d.
Proof.
  intros Hq Hd. assert (0 < 2 ^ (d - 1)) by (apply Z.pow_pos_nonneg; lia).
  destruct q as [|p|p]; try lia. simpl.
  pose proof (digits2_pos_bounds p) as Hp.
  destruct (Z.lt_trichotomy (Z.pos (digits2_pos p)) d) as [Hlt|[Heq|Hgt]]; [|done|].
  - assert (2 ^ Z.pos (digits2_pos p) <= 2 ^ (d - 1)) by (apply Z.pow_le_mono_r; lia). lia.
  - assert (2 ^ d <= 2 ^ (Z.pos (digits2_pos p) - 1)) by (apply Z.pow_le_mono_r; lia). lia.
Qed.

Lemma iter_xO p n : Z.pos (PosDef.Pos.iter xO p n) = Z.pos p * 2 ^ Z.pos n.
Proof.
  induction n as [|n IH] using Pos.peano_ind.
  - simpl. lia.
  - rewrite Pos.iter_succ, Pos2Z.inj_xO, IH, Pos2Z.inj_succ, Z.pow_succ_r by lia. lia.
Qed.


Lemma loc_of_shr_record_of_loc m l : loc_of_shr_record (shr_record_of_loc m l) = l.
Proof. by destruct l as [|[]]. Qed.

Lemma shr_m_of_loc m l : shr_m (shr_record_of_loc m l) = m.
Proof. by destruct l as [|[]]. Qed.

Lemma shr_record_of_loc_of_shr_record mrs :
  shr_record_of_loc (shr_m mrs) (loc_of_shr_record mrs) = mrs.
Proof. by destruct mrs as [m [] []]. Qed.

Lemma shr_record_of_loc_of_shr_record_alt m r s :
  shr_record_of_loc m (loc_of_shr_record {| shr_m := m; shr_r := r; shr_s := s |})
  = {| shr_m := m; shr_r := r; shr_s := s |}.
Proof. by destruct r, s. Qed.

Lemma shr_fexp_53 m e l :
  2 ^ 52 <= m < 2 ^ 53 -> -1074 <= e ->
  shr_fexp 53 1024 m e l = (shr_record_of_loc m l, e).
Proof.
  intros Hm He. unfold shr_fexp. rewrite (Zdigits2_unique m 53) by (simpl; lia).
  unfold fexp, emin. replace (Z.max (53 + e - 53) (3 - 1024 - 53) - e) with 0 by lia.
  done.
Qed.

Lemma shr_fexp_54 m e l :
  2 ^ 53 <= m < 2 ^ 54 -> -1075 <= e ->
  shr_fexp 53 1024 m e l = (shr_1 (shr_record_of_loc m l), e + 1).
Proof.
  intros Hm He. unfold shr_fexp. rewrite (Zdigits2_unique m 54) by (simpl; lia).
  unfold fexp, emin. replace (Z.max (54 + e - 53) (3 - 1024 - 53) - e) with 1 by lia.
  done.
Qed.

Lemma round_nearest_even_bounds m l :
  m <= round_nearest_even m l <= m + 1.
Proof. destruct l as [|[]]; simpl; try lia. destruct (Z.even m); lia. Qed.

(** Rounding a mantissa of 53 bits. *)
Lemma binary_round_aux_53 m e l :
  2 ^ 52 <= m < 2 ^ 53 -> -1074 <= e <= 970 ->
  binary_round_aux 53 1024 false m e l
  = if round_nearest_even m l <? 2 ^ 53
    then S754_finite false (Z.to_pos (round_nearest_even m l)) e
    else S754_finite false (Z.to_pos (2 ^ 52)) (e + 1).
Proof.
  intros Hm He. unfold binary_round_aux. rewrite shr_fexp_53 by lia.
  rewrite shr_m_of_loc, loc_of_shr_record_of_loc.
  pose proof (round_nearest_even_bounds m l) as Hr.
  destruct (Z.ltb_spec (round_nearest_even m l) (2 ^ 53)) as [Hlt|Hge].
  - rewrite shr_fexp_53 by lia. rewrite shr_m_of_loc.
    destruct (round_nearest_even m l) as [|p|p] eqn:Hp; try lia.
    destruct (Z.leb_spec e (1024 - 53)); [done|lia].
  - assert (round_nearest_even m l = 2 ^ 53) as -> by lia.
    rewrite shr_fexp_54 by lia.
    change (shr_m (shr_1 (shr_record_of_loc (2 ^ 53) loc_Exact))) with (2 ^ 52).
    change (2 ^ 52) with (Z.pos (Z.to_pos (2 ^ 52))) at 1. cbv iota beta.
    destruct (Z.leb_spec (e + 1) (1024 - 53)); [done|lia].
Qed.

Lemma shr_1_of_loc m l :
  1 < m ->
  shr_1 (shr_record_of_loc m l)
  = {| shr_m := Z.div2 m; shr_r := Z.odd m;
       shr_s := match l with loc_Exact => false | _ => true end |}.
Proof. intros Hm. destruct m as [|[p|p|]|]; try lia; by destruct l as [|[]]. Qed.

(** Rounding a mantissa of 54 bits: one bit is shifted out first. *)
Lemma binary_round_aux_54 m e l :
  2 ^ 53 <= m < 2 ^ 54 -> -1075 <= e <= 969 ->
  binary_round_aux 53 1024 false m e l
  = binary_round_aux 53 1024 false (Z.div2 m) (e + 1)
      (loc_of_shr_record
         {| shr_m := Z.div2 m; shr_r := Z.odd m;
            shr_s := match l with loc_Exact => false | _ => true end |}).
Proof.
  intros Hm He. unfold binary_round_aux at 1. rewrite shr_fexp_54 by lia.
  rewrite shr_1_of_loc by lia.
  assert (2 ^ 52 <= Z.div2 m < 2 ^ 53).
  { rewrite Z.div2_div. pose proof (Z.div_mod m 2 ltac:(lia)).
    pose proof (Z.mod_pos_bound m 2 ltac:(lia)). lia. }
  unfold binary_round_aux. rewrite (shr_fexp_53 (Z.div2 m) (e + 1)) by lia.
  by rewrite shr_record_of_loc_of_shr_record_alt.
Qed.

Lemma new_location_spec m r :
  0 < m -> 0 <= r < m ->
  new_location m r = if r =? 0 then loc_Exact else loc_Inexact (2 * r ?= m).
Proof.
  intros Hm Hr. unfold new_location, new_location_even, new_location_odd.
  destruct (Z.even m) eqn:Hev; [done|].
  destruct (Z.eqb_spec r 0); [done|]. f_equal.
  assert (Z.odd m = true) as Hodd by (by rewrite <- Z.negb_even, Hev).
  apply Z.odd_spec in Hodd as [h Hh].
  destruct (Z.compare_spec (2 * r + 1) m); destruct (Z.compare_spec (2 * r) m); try done; lia.
Qed.

(** An [int] of [d] bits as a double: the mantissa filled up to 53 bits. *)
Lemma binary_normalize_int z d :
  2 ^ (d - 1) <= z < 2 ^ d -> 0 < d < 53 ->
  binary_normalize 53 1024 z 0 false
  = S754_finite false (Z.to_pos (z * 2 ^ (53 - d))) (d - 53).
Proof.
  intros Hz Hd. assert (0 < 2 ^ (d - 1)) by (apply Z.pow_pos_nonneg; lia).
  destruct z as [|p|p]; try lia.
  pose proof (Zdigits2_unique (Z.pos p) d Hz ltac:(lia)) as Hdig. simpl in Hdig.
  unfold binary_normalize, binary_round, shl_align, fexp, emin.
  rewrite Hdig.
  replace (Z.max (d + 0 - 53) (3 - 1024 - 53) - 0) with (d - 53) by lia.
  destruct (d - 53) as [|n|n] eqn:Hn; try lia.
  replace (Z.max (d + 0 - 53) (3 - 1024 - 53)) with (Z.neg n) by lia.
  assert (Z.pos (PosDef.Pos.iter xO p n) = Z.pos p * 2 ^ (53 - d)) as Hm.
  { rewrite iter_xO. f_equal. f_equal. lia. }
  assert (2 ^ 52 <= Z.pos p * 2 ^ (53 - d) < 2 ^ 53) as Hb.
  { assert (2 ^ 52 = 2 ^ (d - 1) * 2 ^ (53 - d)) as ->
      by (rewrite <- Z.pow_add_r by lia; f_equal; lia).
    assert (2 ^ 53 = 2 ^ d * 2 ^ (53 - d)) as ->
      by (rewrite <- Z.pow_add_r by lia; f_equal; lia).
    assert (0 < 2 ^ (53 - d)) by (apply Z.pow_pos_nonneg; lia). nia. }
  rewrite binary_round_aux_53 by lia. simpl round_nearest_even.
  destruct (Z.ltb_spec (Z.pos (PosDef.Pos.iter xO p n)) (2 ^ 53)); [|lia].
  by rewrite Hm.
Qed.

(** The quotient of two doubles with full mantissas, before rounding. *)
Lemma SFdiv_finite m1 e1 m2 e2 :
  2 ^ 52 <= Z.pos m1 < 2 ^ 53 -> 2 ^ 52 <= Z.pos m2 < 2 ^ 53 ->
  -1000 <= e1 - e2 ->
  SFdiv 53 1024 (S754_finite false m1 e1) (S754_finite false m2 e2)
  = binary_round_aux 53 1024 false
      (Z.pos m1 * 2 ^ 53 / Z.pos m2) (e1 - e2 - 53)
      (new_location (Z.pos m2) ((Z.pos m1 * 2 ^ 53) mod Z.pos m2)).
Proof.
  intros H1 H2 He. unfold SFdiv, SFdiv_core_binary.
  rewrite (Zdigits2_unique (Z.pos m1) 53), (Zdigits2_unique (Z.pos m2) 53) by (simpl; lia).
  unfold fexp, emin.
  replace (Z.min (Z.max (53 + e1 - (53 + e2) - 53) (3 - 1024 - 53)) (e1 - e2))
    with (e1 - e2 - 53) by lia.
  replace (e1 - e2 - (e1 - e2 - 53)) with 53 by lia.
  rewrite Z.shiftl_mul_pow2 by lia.
  unfold Z.div, Z.modulo. by destruct (Z.div_eucl _ _).
Qed.

(** The float [0.8] as a double: [Tm * 2 ^ -53]. *)
Definition Tm : Z := 13421773 * 2 ^ 29.
Definition T : spec_float := S754_finite false (Z.to_pos Tm) (-53).

Lemma gt_T m e :
  SFltb T (S754_finite false m e) = true <-> -53 < e \/ (e = -53 /\ Tm < Z.pos m).
Proof.
  unfold SFltb, SFcompare, T.
  destruct (Z.compare_spec (-53) e) as [<-|Hlt|Hgt].
  - change (Pos.compare_cont Eq (Z.to_pos Tm) m) with (Pos.compare (Z.to_pos Tm) m).
    destruct (Pos.compare_spec (Z.to_pos Tm) m) as [Heq|Hlt|Hgt].
    + split; [done|]. intros [?|[_ ?]]; [lia|]. subst m. unfold Tm in *. lia.
    + split; [|done]. intros _. right. split; [done|]. unfold Tm in *. lia.
    + split; [done|]. intros [?|[_ ?]]; [lia|]. unfold Tm in *. lia.
  - split; [|done]. intros _. by left.
  - split; [done|]. intros [?|[? _]]; lia.
Qed.

Lemma gt_T_53 m e l :
  2 ^ 52 <= m < 2 ^ 53 -> -1074 <= e <= 970 ->
  SFltb T (binary_round_aux 53 1024 false m e l) = true
  <-> -53 < e \/ (e = -53 /\ Tm < round_nearest_even m l).
Proof.
  intros Hm He. rewrite binary_round_aux_53 by done.
  pose proof (round_nearest_even_bounds m l) as Hr.
  destruct (Z.ltb_spec (round_nearest_even m l) (2 ^ 53)) as [Hlt|Hge].
  - rewrite gt_T. by rewrite Z2Pos.id by lia.
  - rewrite gt_T. change (Z.pos (Z.to_pos (2 ^ 52))) with (2 ^ 52). unfold Tm. lia.
Qed.

(** Rounding to nearest even lands above [Tm], which is even, exactly when
    the rounded number is above [Tm + 1/2]. *)
Lemma round_nearest_even_gt_Tm q r m :
  0 < m -> 0 <= r < m ->
  Tm < round_nearest_even q (new_location m r) <-> (2 * Tm + 1) * m < 2 * (q * m + r).
Proof.
  intros Hm Hr. rewrite new_location_spec by done.
  assert (Z.even Tm = true) as HTm by done.
  destruct (Z.lt_trichotomy q Tm) as [Hq|[Hq|Hq]].
  - assert ((q + 1) * m <= Tm * m) by nia.
    pose proof (round_nearest_even_bounds q (if r =? 0 then loc_Exact else loc_Inexact (2 * r ?= m))).
    split; [lia|nia].
  - subst q. destruct (Z.eqb_spec r 0) as [->|Hr0]; simpl; [lia|].
    destruct (Z.compare_spec (2 * r) m); simpl; rewrite ?HTm; lia.
  - assert ((Tm + 1) * m <= q * m) by nia.
    pose proof (round_nearest_even_bounds q (if r =? 0 then loc_Exact else loc_Inexact (2 * r ?= m))).
    split; [nia|lia].
Qed.

(** The same after one bit was shifted out. *)
Lemma round_nearest_even_div2_gt_Tm q r m :
  0 < m -> 0 <= r < m -> 0 <= q ->
  Tm < round_nearest_even (Z.div2 q)
         (loc_of_shr_record
            {| shr_m := Z.div2 q; shr_r := Z.odd q;
               shr_s := match new_location m r with loc_Exact => false | _ => true end |})
  <-> (2 * Tm + 1) * m < q * m + r.
Proof.
  intros Hm Hr Hq. rewrite new_location_spec by done.
  assert (Z.even Tm = true) as HTm by done.
  pose proof (Z.div2_odd q) as Hq2. set (h := Z.div2 q) in *.
  destruct (Z.lt_trichotomy h Tm) as [Hh|[Hh|Hh]].
  - match goal with |- _ < round_nearest_even _ ?l <-> _ =>
      pose proof (round_nearest_even_bounds h l) end.
    assert ((q + 1) * m <= 2 * Tm * m) by (destruct (Z.odd q); simpl in Hq2; nia).
    split; [lia|nia].
  - destruct (Z.odd q) eqn:Hodd; simpl in Hq2.
    + destruct (Z.eqb_spec r 0) as [->|Hr0]; simpl; rewrite Hh, ?HTm.
      * split; [lia|nia].
      * split; [intros _; nia|lia].
    + destruct (Z.eqb_spec r 0) as [->|Hr0]; simpl; (split; [lia|nia]).
  - match goal with |- _ < round_nearest_even _ ?l <-> _ =>
      pose proof (round_nearest_even_bounds h l) end.
    assert ((2 * Tm + 2) * m <= q * m) by (destruct (Z.odd q); simpl in Hq2; nia).
    split; [nia|lia].
Qed.

(** The rounded quotient against the float [0.8]. *)
Lemma quotient_gt_T q r m k :
  2 ^ 52 <= m < 2 ^ 53 -> 0 <= r < m -> 2 ^ 52 <= q < 2 ^ 54 -> 0 <= k <= 40 ->
  SFltb T (binary_round_aux 53 1024 false q (-53 - k) (new_location m r)) = true
  <-> 2 ^ k * ((2 * Tm + 1) * m) < 2 * (q * m + r).
Proof.
  intros Hm Hr Hq Hk.
  assert (k = 0 \/ k = 1 \/ (2 <= k /\ 4 <= 2 ^ k)) as Hcases.
  { destruct (Z.eq_dec k 0); [by left|]. destruct (Z.eq_dec k 1); [by right; left|].
    right. right. split; [lia|]. change 4 with (2 ^ 2). apply Z.pow_le_mono_r; lia. }
  assert (2 ^ 53 < 2 * Tm + 1 < 2 ^ 54) as HT by (unfold Tm; lia).
  destruct (Z.lt_ge_cases q (2 ^ 53)) as [Hlt|Hge].
  - rewrite gt_T_53 by lia. rewrite round_nearest_even_gt_Tm by lia.
    destruct Hcases as [->|[->|[Hk2 Hp]]].
    + change (2 ^ 0) with 1. lia.
    + change (2 ^ 1) with 2. split; [lia|]. intros HW. exfalso.
      assert ((q + 1) * m <= 2 ^ 53 * m) by (apply Z.mul_le_mono_nonneg_r; lia).
      unfold Tm in *. lia.
    + split; [lia|]. intros HW. exfalso.
      assert ((q + 1) * m <= 2 ^ 53 * m) by (apply Z.mul_le_mono_nonneg_r; lia).
      assert (4 * m <= 2 ^ k * m) by (apply Z.mul_le_mono_nonneg_r; lia).
      unfold Tm in *. lia.
  - rewrite binary_round_aux_54 by lia.
    assert (2 ^ 52 <= Z.div2 q < 2 ^ 53).
    { rewrite Z.div2_div. pose proof (Z.div_mod q 2 ltac:(lia)).
      pose proof (Z.mod_pos_bound q 2 ltac:(lia)). lia. }
    rewrite gt_T_53 by lia. rewrite round_nearest_even_div2_gt_Tm by lia.
    destruct Hcases as [->|[->|[Hk2 Hp]]].
    + change (2 ^ 0) with 1. split; [|lia]. intros _.
      assert (2 ^ 53 * m <= q * m) by (apply Z.mul_le_mono_nonneg_r; lia).
      unfold Tm in *. lia.
    + change (2 ^ 1) with 2. lia.
    + split; [lia|]. intros HW. exfalso.
      assert ((q + 1) * m <= 2 ^ 54 * m) by (apply Z.mul_le_mono_nonneg_r; lia).
      assert (4 * m <= 2 ^ k * m) by (apply Z.mul_le_mono_nonneg_r; lia).
      unfold Tm in *. lia.
Qed.

Lemma digits_int z :
  0 < z < 2 ^ 31 ->
  exists d, 0 < d <= 31 /\ 2 ^ (d - 1) <= z < 2 ^ d.
Proof.
  intros Hz. destruct z as [|p|p]; try lia.
  exists (Z.pos (digits2_pos p)). pose proof (digits2_pos_bounds p) as Hp.
  split; [|done]. split; [lia|].
  destruct (Z.le_gt_cases (Z.pos (digits2_pos p)) 31) as [|Hgt]; [done|].
  assert (2 ^ 31 <= 2 ^ (Z.pos (digits2_pos p) - 1)) by (apply Z.pow_le_mono_r; lia). lia.
Qed.

(** The test [(double)u / (double)c > maxFillFactor] of two [int]s, in exact
    arithmetic: the quotient exceeds the float [0.8] by more than half a unit
    in the last place of a double. *)
Lemma ratio_gt_T u c :
  0 < u <= c -> c < 2 ^ 31 ->
  SFltb T (Float.ratio u c) = true <-> (2 * Tm + 1) * c < 2 ^ 54 * u.
Proof.
  intros Hu Hc.
  destruct (digits_int u) as (du & Hdu & Hub); [lia|].
  destruct (digits_int c) as (dc & Hdc & Hcb); [lia|].
  assert (du <= dc) as Hle.
  { destruct (Z.le_gt_cases du dc) as [|Hgt]; [done|].
    assert (2 ^ dc <= 2 ^ (du - 1)) by (apply Z.pow_le_mono_r; lia). lia. }
  unfold Float.ratio, Float.to_double.
  rewrite (binary_normalize_int u du), (binary_normalize_int c dc) by lia.
  set (Pu := 2 ^ (53 - du)). set (Pc := 2 ^ (53 - dc)).
  assert (0 < Pu) by (apply Z.pow_pos_nonneg; lia).
  assert (0 < Pc) by (apply Z.pow_pos_nonneg; lia).
  assert (Pu = 2 ^ (dc - du) * Pc) as HP.
  { unfold Pu, Pc. rewrite <- Z.pow_add_r by lia. f_equal. lia. }
  assert (2 ^ 52 = 2 ^ (du - 1) * Pu) as H52u
    by (unfold Pu; rewrite <- Z.pow_add_r by lia; f_equal; lia).
  assert (2 ^ 53 = 2 ^ du * Pu) as H53u
    by (unfold Pu; rewrite <- Z.pow_add_r by lia; f_equal; lia).
  assert (2 ^ 52 = 2 ^ (dc - 1) * Pc) as H52c
    by (unfold Pc; rewrite <- Z.pow_add_r by lia; f_equal; lia).
  assert (2 ^ 53 = 2 ^ dc * Pc) as H53c
    by (unfold Pc; rewrite <- Z.pow_add_r by lia; f_equal; lia).
  assert (2 ^ 52 <= u * Pu < 2 ^ 53) as Hm1 by (rewrite H52u, H53u; nia).
  assert (2 ^ 52 <= c * Pc < 2 ^ 53) as Hm2 by (rewrite H52c, H53c; nia).
  rewrite SFdiv_finite by (rewrite ?Z2Pos.id by lia; lia).
  rewrite !Z2Pos.id by lia.
  replace (du - 53 - (dc - 53) - 53) with (-53 - (dc - du)) by lia.
  pose proof (Z.div_mod (u * Pu * 2 ^ 53) (c * Pc) ltac:(lia)) as Hdiv.
  pose proof (Z.mod_pos_bound (u * Pu * 2 ^ 53) (c * Pc) ltac:(lia)) as Hmod.
  set (q := u * Pu * 2 ^ 53 / (c * Pc)) in *.
  set (r := (u * Pu * 2 ^ 53) mod (c * Pc)) in *.
  set (m1 := u * Pu) in *. set (m2 := c * Pc) in *.
  assert (2 ^ 52 <= q < 2 ^ 54) as Hq.
  { split.
    - destruct (Z.le_gt_cases (2 ^ 52) q) as [|Hgt]; [done|].
      assert (m2 * (q + 1) <= m2 * 2 ^ 52) by (apply Z.mul_le_mono_nonneg_l; lia). lia.
    - destruct (Z.lt_ge_cases q (2 ^ 54)) as [|Hge]; [done|].
      assert (m2 * 2 ^ 54 <= m2 * q) by (apply Z.mul_le_mono_nonneg_l; lia). lia. }
  rewrite quotient_gt_T by lia.
  replace (2 * (q * m2 + r)) with (2 ^ 54 * u * Pu) by (unfold m1 in Hdiv; lia).
  replace (2 ^ (dc - du) * ((2 * Tm + 1) * m2)) with ((2 * Tm + 1) * c * Pu)
    by (unfold m2; rewrite HP; lia).
  symmetry. apply Z.mul_lt_mono_pos_r. lia.
Qed.

Lemma of_float_maxFillFactor : Float.of_float maxFillFactor = T.
Proof. by vm_compute. Qed.

(** [fillFactor() > maxFillFactor] for [u] used buckets of [c]. *)
Lemma fill_exceeds_spec u c :
  0 < u <= c -> c <= INT_MAX ->
  Float.gt (Float.ratio u c) (Float.of_float maxFillFactor) = true
  <-> (13421773 * 2 ^ 30 + 1) * c < 2 ^ 54 * u.
Proof.
  intros Hu Hc. unfold Float.gt. rewrite of_float_maxFillFactor.
  rewrite ratio_gt_T by (unfold INT_MAX in Hc; lia). unfold Tm. lia.
Qed.

(** Below [2 ^ 24] buckets this is: more than 0.8 of the buckets are used. *)
Lemma fill_exceeds_small u c :
  0 < u <= c -> c < 2 ^ 24 ->
  Float.gt (Float.ratio u c) (Float.of_float maxFillFactor) = true <-> 4 * c < 5 * u.
Proof.
  intros Hu Hc. rewrite fill_exceeds_spec by (unfold INT_MAX; lia). lia.
Qed.

(** With [2 ^ 24] buckets, 13421773 of them used: more than 0.8, and not
    more than the float [0.8]. *)
Lemma fill_above_0_8_not_exceeding :
  4 * 16777216 < 5 * 13421773
  /\ Float.gt (Float.ratio 13421773 16777216) (Float.of_float maxFillFactor) = false.
Proof. split; [lia|by vm_compute]. Qed.

End FloatFacts.

(** ** Facts on the table *)

Module ChainHashFacts.
Import ChainHash.
Section facts.

Context {K V : Type} `{EqDecision K}.
Variable hash : K → Z.

Local Abbreviation t := (@ChainHash.t K V).
Local Abbreviation chain := (list (K * V)).
Local Abbreviation get := (ChainHash.get hash).
Local Abbreviation set := (ChainHash.set hash).
Local Abbreviation remove := (ChainHash.remove hash).
Local Abbreviation contains := (ChainHash.contains hash).
Local Abbreviation rehashing := (ChainHash.rehashing hash).
Local Abbreviation push_front := (ChainHash.push_front hash).
Local Abbreviation index_of := (ChainHash.index_of hash).
Local Abbreviation wf := (ChainHash.wf hash).
Local Abbreviation placed := (ChainHash.placed hash).
Local Abbreviation new := (@ChainHash.new K V).
Local Abbreviation step := (ChainHash.step hash).
Local Abbreviation run := (ChainHash.run hash).
Local Abbreviation reachable := (ChainHash.reachable hash).
Local Abbreviation op := (@ChainHash.op K V).

Implicit Types (c : t) (l : chain) (k key : K) (v value : V).

(** *** The four scans of a chain *)

Lemma chain_get_Some k v l : chain_get k l = Some v → (k, v) ∈ l.
Proof.
  induction l as [|[k' v'] l IH]; simpl; [done|].
  case_decide as Hk.
  - intros [= ->]. subst. left.
  - intros Hv. right. by apply IH.
Qed.

Lemma chain_get_None k l : chain_get k l = None ↔ k ∉ l.*1.
Proof.
  induction l as [|[k' v'] l IH]; simpl.
  - split; [|done]. intros _. apply not_elem_of_nil.
  - rewrite not_elem_of_cons. case_decide as Hk.
    + split; [done|]. intros [Hne _]. by destruct Hne.
    + rewrite IH. naive_solver.
Qed.

Lemma chain_get_elem l k v : NoDup l.*1 → (k, v) ∈ l → chain_get k l = Some v.
Proof.
  intros Hnd Hin. destruct (chain_get k l) as [v'|] eqn:Hget.
  - apply chain_get_Some in Hget. f_equal. by eapply NoDup_fst_unique.
  - apply chain_get_None in Hget. destruct Hget.
    apply list_elem_of_fmap. by exists (k, v).
Qed.

Lemma chain_contains_get k l : chain_contains k l = false ↔ chain_get k l = None.
Proof.
  induction l as [|[k' v'] l IH]; simpl; [done|]. by case_decide.
Qed.

Lemma chain_set_None k v l : chain_set k v l = None ↔ chain_get k l = None.
Proof.
  induction l as [|[k' v'] l IH]; simpl; [done|]. case_decide; [done|].
  rewrite <- IH. by destruct (chain_set k v l).
Qed.

(** [chain_set] finds the first node of the key and changes its value only. *)
Lemma chain_set_Some k v l l' :
  chain_set k v l = Some l' →
  ∃ pre v0 post, l = pre ++ (k, v0) :: post ∧ l' = pre ++ (k, v) :: post ∧ k ∉ pre.*1.
Proof.
  revert l'. induction l as [|[k' v'] l IH]; simpl; intros l'; [done|].
  case_decide as Hk.
  - intros [= <-]. subst. exists [], v', l. split_and!; [done..|]. apply not_elem_of_nil.
  - destruct (chain_set k v l) as [l1|]; simpl; [|done]. intros [= <-].
    destruct (IH l1 eq_refl) as (pre & v0 & post & -> & -> & Hpre).
    exists ((k', v') :: pre), v0, post. split_and!; [done..|].
    simpl. rewrite not_elem_of_cons. naive_solver.
Qed.

Lemma chain_remove_None k l : chain_remove k l = None ↔ chain_get k l = None.
Proof.
  induction l as [|[k' v'] l IH]; simpl; [done|]. case_decide; [done|].
  rewrite <- IH. by destruct (chain_remove k l).
Qed.

(** [chain_remove] unlinks the first node of the key. *)
Lemma chain_remove_Some k l l' :
  chain_remove k l = Some l' →
  ∃ pre v0 post, l = pre ++ (k, v0) :: post ∧ l' = pre ++ post ∧ k ∉ pre.*1.
Proof.
  revert l'. induction l as [|[k' v'] l IH]; simpl; intros l'; [done|].
  case_decide as Hk.
  - intros [= <-]. subst. exists [], v', l. split_and!; [done..|]. apply not_elem_of_nil.
  - destruct (chain_remove k l) as [l1|]; simpl; [|done]. intros [= <-].
    destruct (IH l1 eq_refl) as (pre & v0 & post & -> & -> & Hpre).
    exists ((k', v') :: pre), v0, post. split_and!; [done..|].
    simpl. rewrite not_elem_of_cons. naive_solver.
Qed.

(** *** The invariant, bucket by bucket *)

Lemma placed_lookup cap (a : list chain) :
  placed cap a ↔
  ∀ i l, a !! i = Some l → Forall (λ n, Z.to_nat (hash n.1 `mod` cap) = i) l.
Proof.
  unfold placed, getHashCode. rewrite Forall_lookup. split.
  - intros Ha i l Hl. apply (Ha i (i, l)). by rewrite list_lookup_imap, Hl.
  - intros Ha i [j l]. rewrite list_lookup_imap.
    destruct (a !! i) as [l'|] eqn:Hl; simpl; [|done].
    intros [= <- <-]. simpl. eauto.
Qed.

Lemma index_of_lt c k : wf c → (index_of c k < length (array c))%nat.
Proof.
  intros (Hcap & Hlen & _). rewrite Hlen. unfold index_of, getHashCode.
  pose proof (Z.mod_pos_bound (hash k) (capacity c)). lia.
Qed.

Lemma bucket_lookup c k :
  wf c → array c !! index_of c k = Some (bucket c (index_of c k)).
Proof.
  intros Hwf. unfold bucket. apply list_lookup_lookup_total_lt.
  by apply index_of_lt.
Qed.

Lemma bucket_sizes_lookup c k :
  wf c →
  bucket_sizes c !! index_of c k = Some (Z.of_nat (length (bucket c (index_of c k)))).
Proof.
  intros Hwf. pose proof Hwf as (_ & _ & -> & _).
  apply lengths_lookup. by apply bucket_lookup.
Qed.

Lemma entries_bucket c k v :
  wf c → (k, v) ∈ entries c ↔ (k, v) ∈ bucket c (index_of c k).
Proof.
  intros Hwf. unfold entries. rewrite elem_of_join_lookup. split.
  - intros (i & l & Hl & Hin). pose proof Hwf as (_ & _ & _ & _ & _ & Hpl & _).
    rewrite placed_lookup in Hpl. specialize (Hpl i l Hl).
    rewrite Forall_forall in Hpl. specialize (Hpl _ Hin). simpl in Hpl.
    unfold bucket, index_of, getHashCode. rewrite Hpl.
    by rewrite (lookup_total_Some _ _ _ Hl).
  - intros Hin. exists (index_of c k), (bucket c (index_of c k)).
    split; [by apply bucket_lookup|done].
Qed.

Lemma keys_bucket c k :
  wf c → k ∈ (entries c).*1 ↔ k ∈ (bucket c (index_of c k)).*1.
Proof.
  intros Hwf. rewrite !list_elem_of_fmap. split.
  - intros ([k' v] & -> & Hin). exists (k', v). split; [done|]. by apply entries_bucket.
  - intros ([k' v] & -> & Hin). exists (k', v). split; [done|]. by apply entries_bucket.
Qed.

(** *** The table as a set of entries *)

Lemma get_Throw c k e : get c k = Throw e → e = out_of_range.
Proof. unfold get. destruct (chain_get _ _); congruence. Qed.

Lemma get_Ret c k v : wf c → get c k = Ret v ↔ (k, v) ∈ entries c.
Proof.
  intros Hwf. rewrite entries_bucket by done. unfold get. split.
  - destruct (chain_get _ _) as [v'|] eqn:Hget; [|done].
    intros [= ->]. by apply chain_get_Some.
  - intros Hin. destruct (chain_get _ _) as [v'|] eqn:Hget.
    + apply chain_get_Some, entries_bucket in Hget; [|done].
      apply entries_bucket in Hin; [|done].
      pose proof Hwf as (_ & _ & _ & _ & _ & _ & Hnd).
      f_equal. by eapply NoDup_fst_unique.
    + apply chain_get_None in Hget. destruct Hget.
      apply list_elem_of_fmap. by exists (k, v).
Qed.

Lemma get_out_of_range c k :
  wf c → get c k = Throw out_of_range ↔ k ∉ (entries c).*1.
Proof.
  intros Hwf. rewrite keys_bucket by done. rewrite <- chain_get_None.
  unfold get. by destruct (chain_get _ _).
Qed.

Lemma contains_keys c k : wf c → contains c k = true ↔ k ∈ (entries c).*1.
Proof.
  intros Hwf. rewrite keys_bucket by done. unfold contains.
  destruct (chain_contains _ _) eqn:Hc.
  - split; [|done]. intros _.
    destruct (decide (k ∈ (bucket c (index_of c k)).*1)) as [|Hn]; [done|].
    apply chain_get_None, chain_contains_get in Hn. congruence.
  - split; [done|]. intros Hin.
    apply chain_contains_get, chain_get_None in Hc. done.
Qed.

(** Two tables with the same entries answer [get] alike. *)
Lemma get_ext c c' k :
  wf c → wf c' → entries c ≡ₚ entries c' → get c k = get c' k.
Proof.
  intros Hwf Hwf' Hp. destruct (get c k) as [v|e] eqn:Hget.
  - symmetry. apply get_Ret; [done|]. rewrite <- Hp. by apply get_Ret.
  - pose proof (get_Throw _ _ _ Hget) as ->. symmetry.
    apply get_out_of_range; [done|]. rewrite <- Hp. by apply get_out_of_range.
Qed.

(** *** The constructor *)

Lemma wf_new initialCapacity : in_int initialCapacity → wf (new initialCapacity).
Proof.
  unfold in_int, INT_MIN, INT_MAX. intros Hc. unfold ChainHash.new, ChainHash.wf, entries. simpl.
  set (cap := if initialCapacity <=? 0 then 10 else initialCapacity).
  assert (0 < cap ≤ 2 ^ 31 - 1) by (unfold cap; destruct (Z.leb_spec initialCapacity 0); lia).
  rewrite join_replicate_nil, lengths_replicate, count_pos_replicate, length_replicate.
  split_and!; try done; try lia.
  - unfold INT_MAX. lia.
  - apply placed_lookup. intros i l Hl. apply lookup_replicate in Hl as [-> _].
    constructor.
  - constructor.
Qed.

(** *** Replacing the chain of one bucket *)

Lemma wf_replace c i l l' :
  wf c → array c !! i = Some l →
  Forall (λ n, Z.to_nat (hash n.1 `mod` capacity c) = i) l' →
  NoDup (mjoin (<[i:=l']> (array c))).*1 →
  wf {| array := <[i:=l']> (array c);
        nsize := nsize c - Z.of_nat (length l) + Z.of_nat (length l');
        capacity := capacity c;
        bucket_sizes := <[i:=Z.of_nat (length l')]> (bucket_sizes c);
        usedBuckets :=
          usedBuckets c - (if 0 <? Z.of_nat (length l) then 1 else 0)
          + (if 0 <? Z.of_nat (length l') then 1 else 0) |}.
Proof.
  intros (Hcap & Hlen & Hbs & Hub & Hn & Hpl & Hnd) Hl Hl' Hnd'.
  unfold ChainHash.wf, entries in *. simpl.
  split; [done|]. split_and!; [| | | | |done].
  - by rewrite length_insert.
  - by rewrite lengths_insert, Hbs.
  - rewrite Hub. symmetry. apply count_pos_insert. rewrite Hbs. by apply lengths_lookup.
  - destruct (join_insert_split _ _ _ l' Hl) as (pre & post & Hj & ->).
    rewrite Hn, Hj, !length_app. lia.
  - apply placed_lookup. intros j lj Hj. destruct (decide (i = j)) as [->|Hne].
    + rewrite list_lookup_insert_eq in Hj by (by eapply lookup_lt_Some).
      by injection Hj as <-.
    + rewrite list_lookup_insert_ne in Hj by done.
      rewrite placed_lookup in Hpl. by eapply Hpl.
Qed.

(** *** [set] on a key that is present *)

Lemma set_present c k v :
  contains c k = true →
  ∃ pre v0 post,
    bucket c (index_of c k) = pre ++ (k, v0) :: post ∧ (k ∉ pre.*1) ∧
    set c k v =
      ({| array := <[index_of c k := pre ++ (k, v) :: post]> (array c);
          nsize := nsize c;
          capacity := capacity c;
          bucket_sizes := bucket_sizes c;
          usedBuckets := usedBuckets c |}, Ret ()).
Proof.
  unfold contains, ChainHash.set. intros Hc.
  destruct (chain_set k v _) as [l'|] eqn:Hset.
  - apply chain_set_Some in Hset as (pre & v0 & post & Hl & -> & Hpre). eauto 10.
  - apply chain_set_None, chain_contains_get in Hset. congruence.
Qed.

(** *** [set] on a key that is absent *)

Lemma set_absent c k v :
  contains c k = false →
  set c k v =
    if overloaded (push_front c k v) (index_of c k) then rehashing (push_front c k v)
    else (push_front c k v, Ret ()).
Proof.
  unfold contains, ChainHash.set. intros Hc.
  apply chain_contains_get, (chain_set_None _ v) in Hc. by rewrite Hc.
Qed.

(** *** [rehashing] *)

(** What the loops of [rehashing] keep true of the new arrays and counter,
    [moved] being the nodes taken from the old chains so far. *)
Definition rehash_inv (newCap : Z) (st : list chain * list Z * Z) (moved : chain) : Prop :=
  length st.1.1 = Z.to_nat newCap
  ∧ st.1.2 = lengths st.1.1
  ∧ st.2 = count_pos st.1.2
  ∧ placed newCap st.1.1
  ∧ mjoin st.1.1 ≡ₚ moved.

Lemma rehash_inv_init newCap :
  rehash_inv newCap (replicate (Z.to_nat newCap) [], replicate (Z.to_nat newCap) 0, 0) [].
Proof.
  unfold rehash_inv. simpl.
  rewrite length_replicate, lengths_replicate, count_pos_replicate, join_replicate_nil.
  split_and!; try done.
  apply placed_lookup. intros i l Hl. apply lookup_replicate in Hl as [-> _]. constructor.
Qed.

Lemma rehash_inv_perm newCap st moved moved' :
  moved ≡ₚ moved' → rehash_inv newCap st moved → rehash_inv newCap st moved'.
Proof. unfold rehash_inv. intros Hp (?&?&?&?&?). split_and!; try done. by rewrite <- Hp. Qed.

Lemma rehash_node_inv newCap st node moved :
  0 < newCap → rehash_inv newCap st moved →
  rehash_inv newCap (rehash_node hash newCap st node) (node :: moved).
Proof.
  destruct st as [[a bs] ub]. unfold rehash_inv, rehash_node, getHashCode. simpl.
  intros Hcap (Hlen & Hbs & Hub & Hpl & Hp).
  set (idx := Z.to_nat (hash node.1 `mod` newCap)).
  assert (idx < length a)%nat as Hidx.
  { rewrite Hlen. unfold idx. pose proof (Z.mod_pos_bound (hash node.1) newCap). lia. }
  assert (a !! idx = Some (a !!! idx)) as Hl by by apply list_lookup_lookup_total_lt.
  assert (bs !! idx = Some (Z.of_nat (length (a !!! idx)))) as Hn
    by (rewrite Hbs; by apply lengths_lookup).
  rewrite (lookup_total_Some _ _ _ Hn).
  split_and!.
  - by rewrite length_insert.
  - rewrite lengths_insert, Hbs. simpl. f_equal. lia.
  - rewrite (count_pos_insert _ _ _ _ Hn), Hub.
    destruct (Z.eqb_spec (Z.of_nat (length (a !!! idx))) 0) as [->|Hne]; simpl.
    + destruct (Z.ltb_spec 0 (0 + 1)); lia.
    + destruct (Z.ltb_spec 0 (Z.of_nat (length (a !!! idx))));
        destruct (Z.ltb_spec 0 (Z.of_nat (length (a !!! idx)) + 1)); lia.
  - apply placed_lookup. intros j lj Hj. destruct (decide (idx = j)) as [<-|Hne].
    + rewrite list_lookup_insert_eq in Hj by done. injection Hj as <-.
      constructor; [done|]. rewrite placed_lookup in Hpl. by eapply Hpl.
    + rewrite list_lookup_insert_ne in Hj by done.
      rewrite placed_lookup in Hpl. by eapply Hpl.
  - destruct (join_insert_split _ _ _ (node :: a !!! idx) Hl) as (pre & post & Hj & ->).
    rewrite <- Hp, Hj. simpl. symmetry. apply Permutation_middle.
Qed.

Lemma rehash_chain_inv newCap nodes st moved :
  0 < newCap → rehash_inv newCap st moved →
  rehash_inv newCap (fold_left (rehash_node hash newCap) nodes st) (nodes ++ moved).
Proof.
  intros Hcap. revert st moved.
  induction nodes as [|node nodes IH]; intros st moved Hinv; simpl; [done|].
  eapply rehash_inv_perm; [|apply IH, rehash_node_inv; done].
  symmetry. apply Permutation_middle.
Qed.

Lemma rehash_array_inv newCap (a : list chain) st moved :
  0 < newCap → rehash_inv newCap st moved →
  rehash_inv newCap
    (fold_left (λ st nodes, fold_left (rehash_node hash newCap) nodes st) a st)
    (mjoin a ++ moved).
Proof.
  intros Hcap. revert st moved.
  induction a as [|nodes a IH]; intros st moved Hinv; simpl; [done|].
  apply (rehash_inv_perm _ _ (mjoin a ++ (nodes ++ moved)));
    [|apply IH, rehash_chain_inv; done].
  rewrite (assoc_L (++)). f_equiv. apply Permutation_app_comm.
Qed.

(** The capacity [rehashing] moves to: doubled plus one while that is an
    [int], one more otherwise. *)
Definition grown (oldCap : Z) : Z :=
  if oldCap <? 2 ^ 30 then 2 * oldCap + 1 else oldCap + 1.

Lemma rehashing_newCap oldCap :
  0 < oldCap ≤ INT_MAX →
  (if wrap32 (oldCap * 2 + 1) <=? oldCap then wrap32 (oldCap + 1) else wrap32 (oldCap * 2 + 1))
  = if oldCap =? INT_MAX then INT_MIN else grown oldCap.
Proof.
  unfold grown, INT_MAX, INT_MIN. intros Hcap.
  destruct (Z.ltb_spec oldCap (2 ^ 30)).
  - rewrite (wrap32_small (oldCap * 2 + 1)) by (unfold in_int, INT_MIN, INT_MAX; lia).
    destruct (Z.leb_spec (oldCap * 2 + 1) oldCap); [lia|].
    destruct (Z.eqb_spec oldCap (2 ^ 31 - 1)); lia.
  - rewrite (wrap32_over (oldCap * 2 + 1)) by (unfold INT_MAX; lia).
    destruct (Z.leb_spec (oldCap * 2 + 1 - 2 ^ 32) oldCap); [|lia].
    destruct (Z.eqb_spec oldCap (2 ^ 31 - 1)) as [->|Hne].
    + rewrite wrap32_over by (unfold INT_MAX; lia). lia.
    + apply wrap32_small. unfold in_int, INT_MIN, INT_MAX. lia.
Qed.

(** At the largest capacity the allocation of [rehashing] throws and the
    table is left as it was. *)
Lemma rehashing_throws c :
  capacity c = INT_MAX → rehashing c = (c, Throw bad_array_new_length).
Proof.
  intros Hcap. unfold ChainHash.rehashing.
  rewrite rehashing_newCap by (rewrite Hcap; unfold INT_MAX; lia).
  by rewrite Hcap.
Qed.

(** Below it, [rehashing] returns with every node moved to the bucket of its
    hash under the grown capacity. *)
Lemma rehashing_returns c :
  wf c → capacity c < INT_MAX →
  (rehashing c).2 = Ret ()
  ∧ wf (rehashing c).1
  ∧ entries (rehashing c).1 ≡ₚ entries c
  ∧ nsize (rehashing c).1 = nsize c
  ∧ capacity (rehashing c).1 = grown (capacity c).
Proof.
  intros (Hcap & Hlen & Hbs & Hub & Hn & Hpl & Hnd) Hlt. unfold ChainHash.rehashing.
  rewrite rehashing_newCap by done.
  destruct (Z.eqb_spec (capacity c) INT_MAX) as [|_]; [lia|].
  assert (capacity c < grown (capacity c) ≤ INT_MAX) as Hg.
  { unfold grown, INT_MAX in *. destruct (Z.ltb_spec (capacity c) (2 ^ 30)); lia. }
  destruct (Z.ltb_spec (grown (capacity c)) 0) as [|_]; [lia|].
  rewrite take_ge by lia.
  pose proof (rehash_array_inv (grown (capacity c)) (array c) _ []
                ltac:(lia) (rehash_inv_init _)) as Hinv.
  destruct (fold_left _ _ _) as [[a bs] ub]. rewrite app_nil_r in Hinv.
  destruct Hinv as (Hlen' & Hbs' & Hub' & Hpl' & Hp). simpl in *.
  split_and!; try done.
  unfold ChainHash.wf, entries. simpl. split_and!; try done; try lia.
  - rewrite Hn. unfold entries. by rewrite Hp.
  - by rewrite Hp.
Qed.

(** *** The state [set] and [remove] leave *)

(** [get] is decided by the entries of the key. *)
Lemma get_agree c c' k :
  wf c → wf c' → (∀ v, (k, v) ∈ entries c ↔ (k, v) ∈ entries c') → get c k = get c' k.
Proof.
  intros Hwf Hwf' Hiff. destruct (get c k) as [v|e] eqn:Hget.
  - symmetry. apply get_Ret; [done|]. apply Hiff. by apply get_Ret.
  - apply get_Throw in Hget as Hget'. subst e.
    destruct (get c' k) as [v'|e'] eqn:Hget'.
    + apply get_Ret, Hiff, get_Ret in Hget'; [congruence|done..].
    + by apply get_Throw in Hget' as ->.
Qed.

Lemma push_front_spec c k v :
  wf c → contains c k = false →
  wf (push_front c k v) ∧ entries (push_front c k v) ≡ₚ (k, v) :: entries c.
Proof.
  intros Hwf Hc.
  pose proof (bucket_lookup c k Hwf) as Hl.
  pose proof (bucket_sizes_lookup c k Hwf) as Hn.
  set (i := index_of c k) in *. set (l := bucket c i) in *.
  assert (mjoin (<[i:=(k, v) :: l]> (array c)) ≡ₚ (k, v) :: entries c) as Hp.
  { destruct (join_insert_split _ _ _ ((k, v) :: l) Hl) as (pre & post & Hj & ->).
    unfold entries. rewrite Hj. simpl. symmetry. apply Permutation_middle. }
  split; [|done].
  assert (push_front c k v =
    {| array := <[i:=(k, v) :: l]> (array c);
       nsize := nsize c - Z.of_nat (length l) + Z.of_nat (length ((k, v) :: l));
       capacity := capacity c;
       bucket_sizes := <[i:=Z.of_nat (length ((k, v) :: l))]> (bucket_sizes c);
       usedBuckets :=
         usedBuckets c - (if 0 <? Z.of_nat (length l) then 1 else 0)
         + (if 0 <? Z.of_nat (length ((k, v) :: l)) then 1 else 0) |}) as ->.
  { unfold ChainHash.push_front. fold i. fold l.
    rewrite (lookup_total_Some _ _ _ Hn). simpl length.
    f_equal; [lia|f_equal; lia|].
    destruct (Z.eqb_spec (Z.of_nat (length l)) 0);
      destruct (Z.ltb_spec 0 (Z.of_nat (length l)));
      destruct (Z.ltb_spec 0 (Z.of_nat (S (length l)))); lia. }
  apply wf_replace; [done..| |].
  - constructor; [done|].
    pose proof Hwf as (_ & _ & _ & _ & _ & Hpl & _).
    rewrite placed_lookup in Hpl. by eapply Hpl.
  - rewrite Hp. simpl. apply NoDup_cons. split.
    + intros Hin. apply contains_keys in Hin; [congruence|done].
    + by destruct Hwf as (_ & _ & _ & _ & _ & _ & Hnd).
Qed.

(** Whether or not [rehashing] runs and returns, [set] of an absent key
    leaves a table that holds one more entry. *)
Lemma set_absent_spec c k v :
  wf c → contains c k = false →
  wf (set c k v).1 ∧ entries (set c k v).1 ≡ₚ (k, v) :: entries c.
Proof.
  intros Hwf Hc. rewrite set_absent by done.
  destruct (push_front_spec c k v Hwf Hc) as [Hwf' Hp].
  destruct (overloaded _ _); [|done].
  destruct (decide (capacity (push_front c k v) = INT_MAX)) as [Hmax|Hne].
  - by rewrite rehashing_throws.
  - assert (capacity (push_front c k v) < INT_MAX) as Hlt
      by (destruct Hwf' as ([_ ?] & _); lia).
    destruct (rehashing_returns _ Hwf' Hlt) as (_ & ? & Hp' & _).
    split; [done|]. by rewrite Hp'.
Qed.

(** [set] of a present key changes the value of its node, and nothing
    else. *)
Lemma set_present_spec c k v :
  wf c → contains c k = true →
  wf (set c k v).1
  ∧ (set c k v).2 = Ret ()
  ∧ (∃ pre v0 post,
       bucket c (index_of c k) = pre ++ (k, v0) :: post ∧ (k ∉ pre.*1) ∧
       array (set c k v).1 = <[index_of c k := pre ++ (k, v) :: post]> (array c))
  ∧ (∃ pre v0 post,
       entries c = pre ++ (k, v0) :: post ∧
       entries (set c k v).1 = pre ++ (k, v) :: post)
  ∧ nsize (set c k v).1 = nsize c
  ∧ capacity (set c k v).1 = capacity c
  ∧ bucket_sizes (set c k v).1 = bucket_sizes c
  ∧ usedBuckets (set c k v).1 = usedBuckets c.
Proof.
  intros Hwf Hc.
  destruct (set_present c k v Hc) as (pre & v0 & post & Hb & Hpre & ->). simpl.
  pose proof (bucket_lookup c k Hwf) as Hl.
  pose proof (bucket_sizes_lookup c k Hwf) as Hn.
  set (i := index_of c k) in *. rewrite Hb in Hl, Hn.
  destruct (join_insert_split _ _ _ (pre ++ (k, v) :: post) Hl) as (P & Q & Hj & Hj').
  assert (entries c = (P ++ pre) ++ (k, v0) :: post ++ Q) as He.
  { unfold entries. rewrite Hj. by rewrite <- !(assoc_L (++)). }
  assert (mjoin (<[i:=pre ++ (k, v) :: post]> (array c))
          = (P ++ pre) ++ (k, v) :: post ++ Q) as He'.
  { rewrite Hj'. by rewrite <- !(assoc_L (++)). }
  split_and!; try done; [|by eauto 10|by eauto 10].
  pose proof (wf_replace c i _ (pre ++ (k, v) :: post) Hwf Hl) as Hw.
  rewrite !length_app in Hw. simpl in Hw.
  replace (nsize c - _ + _) with (nsize c) in Hw by lia.
  replace (usedBuckets c - _ + _) with (usedBuckets c) in Hw by lia.
  rewrite (list_insert_id (bucket_sizes c)) in Hw by (by rewrite Hn, length_app).
  apply Hw.
  - pose proof Hwf as (_ & _ & _ & _ & _ & Hpl & _).
    rewrite placed_lookup in Hpl. specialize (Hpl _ _ Hl).
    rewrite !Forall_app, !Forall_cons in Hpl |- *. naive_solver.
  - rewrite He'. destruct Hwf as (_ & _ & _ & _ & _ & _ & Hnd).
    rewrite He in Hnd. by rewrite !fmap_app, !fmap_cons in Hnd |- *.
Qed.

Lemma remove_absent c k : contains c k = false → remove c k = (c, false).
Proof.
  unfold contains, ChainHash.remove. intros Hc.
  apply chain_contains_get, chain_remove_None in Hc. by rewrite Hc.
Qed.

(** [remove] of a present key unlinks its node, and nothing else. *)
Lemma remove_present_spec c k :
  wf c → contains c k = true →
  (remove c k).2 = true
  ∧ wf (remove c k).1
  ∧ (∃ v0, entries c ≡ₚ (k, v0) :: entries (remove c k).1)
  ∧ capacity (remove c k).1 = capacity c.
Proof.
  intros Hwf Hc. unfold ChainHash.remove.
  pose proof (bucket_lookup c k Hwf) as Hl.
  pose proof (bucket_sizes_lookup c k Hwf) as Hn.
  set (i := index_of c k) in *.
  destruct (chain_remove k (bucket c i)) as [l'|] eqn:Hrm; cycle 1.
  { apply chain_remove_None, chain_contains_get in Hrm. unfold contains in Hc.
    fold i in Hc. congruence. }
  apply chain_remove_Some in Hrm as (pre & v0 & post & Hb & -> & Hpre). simpl.
  rewrite Hb in Hl, Hn.
  destruct (join_insert_split _ _ _ (pre ++ post) Hl) as (P & Q & Hj & Hj').
  assert (entries c ≡ₚ (k, v0) :: mjoin (<[i:=pre ++ post]> (array c))) as Hp.
  { unfold entries. rewrite Hj, Hj'. rewrite <- !(assoc_L (++)). simpl.
    rewrite (assoc_L (++) P pre ((k, v0) :: post ++ Q)).
    rewrite (assoc_L (++) P pre (post ++ Q)).
    symmetry. apply Permutation_middle. }
  split_and!; try done; [|by exists v0].
  rewrite (lookup_total_Some _ _ _ Hn).
  pose proof (wf_replace c i _ (pre ++ post) Hwf Hl) as Hw.
  rewrite !length_app in Hw |- *. simpl in Hw |- *.
  match goal with |- wf ?r =>
    match type of Hw with _ → _ → wf ?r' => replace r with r' end end.
  - apply Hw.
    + pose proof Hwf as (_ & _ & _ & _ & _ & Hpl & _).
      rewrite placed_lookup in Hpl. specialize (Hpl _ _ Hl).
      rewrite !Forall_app, !Forall_cons in Hpl. rewrite Forall_app. naive_solver.
    + destruct Hwf as (_ & _ & _ & _ & _ & _ & Hnd).
      rewrite Hp in Hnd. simpl in Hnd. by apply NoDup_cons in Hnd as [_ ?].
  - rewrite !length_app.
    f_equal; [lia|f_equal; lia|].
    destruct (Z.eqb_spec (Z.of_nat (length pre + S (length post)) - 1) 0);
      destruct (Z.ltb_spec 0 (Z.of_nat (length pre + S (length post))));
      destruct (Z.ltb_spec 0 (Z.of_nat (length pre + length post))); lia.
Qed.

(** *** The invariant holds of every table *)

Lemma wf_set c k v : wf c → wf (set c k v).1.
Proof.
  intros Hwf. destruct (contains c k) eqn:Hc.
  - by apply set_present_spec.
  - by apply set_absent_spec.
Qed.

Lemma wf_remove c k : wf c → wf (remove c k).1.
Proof.
  intros Hwf. destruct (contains c k) eqn:Hc.
  - by apply remove_present_spec.
  - by rewrite remove_absent.
Qed.

Lemma wf_step c (o : op) : wf c → wf (step c o).
Proof. destruct o; simpl; [apply wf_set|apply wf_remove]. Qed.

Lemma wf_run (ops : list op) c : wf c → wf (run ops c).
Proof.
  revert c. induction ops as [|o ops IH]; intros c Hwf; simpl; [done|].
  by apply IH, wf_step.
Qed.

Lemma reachable_wf c : reachable c → wf c.
Proof. induction 1; [by apply wf_new|by apply wf_step]. Qed.

Lemma run_snoc (ops : list op) (o : op) c : run (ops ++ [o]) c = step (run ops c) o.
Proof. unfold ChainHash.run. by rewrite fold_left_app. Qed.

Lemma reachable_run initialCapacity (ops : list op) :
  in_int initialCapacity → reachable (run ops (new initialCapacity)).
Proof.
  intros Hc. induction ops as [|o ops IH] using rev_ind; [by constructor|].
  rewrite run_snoc. by constructor.
Qed.

(** *** [get] after [set] and [remove] *)

Lemma get_set_eq c k v : wf c → get (set c k v).1 k = Ret v.
Proof.
  intros Hwf. apply get_Ret; [by apply wf_set|].
  destruct (contains c k) eqn:Hc.
  - destruct (set_present_spec c k v Hwf Hc) as (_ & _ & _ & (P & v0 & Q & _ & ->) & _).
    apply elem_of_app. right. left.
  - destruct (set_absent_spec c k v Hwf Hc) as [_ ->]. left.
Qed.

Lemma get_set_ne c k v k' : wf c → k' ≠ k → get (set c k v).1 k' = get c k'.
Proof.
  intros Hwf Hne. apply get_agree; [by apply wf_set|done|]. intros v'.
  destruct (contains c k) eqn:Hc.
  - destruct (set_present_spec c k v Hwf Hc) as (_ & _ & _ & (P & v0 & Q & -> & ->) & _).
    rewrite !elem_of_app, !elem_of_cons. naive_solver.
  - destruct (set_absent_spec c k v Hwf Hc) as [_ ->].
    rewrite elem_of_cons. naive_solver.
Qed.

Lemma get_remove_eq c k : wf c → get (remove c k).1 k = Throw out_of_range.
Proof.
  intros Hwf. apply get_out_of_range; [by apply wf_remove|].
  destruct (contains c k) eqn:Hc.
  - destruct (remove_present_spec c k Hwf Hc) as (_ & _ & [v0 Hp] & _).
    destruct Hwf as (_ & _ & _ & _ & _ & _ & Hnd).
    rewrite Hp in Hnd. simpl in Hnd. by apply NoDup_cons in Hnd as [? _].
  - rewrite remove_absent by done. simpl. intros Hin.
    apply contains_keys in Hin; [congruence|done].
Qed.

Lemma get_remove_ne c k k' : wf c → k' ≠ k → get (remove c k).1 k' = get c k'.
Proof.
  intros Hwf Hne. destruct (contains c k) eqn:Hc.
  - apply get_agree; [by apply wf_remove|done|]. intros v'.
    destruct (remove_present_spec c k Hwf Hc) as (_ & _ & [v0 ->] & _).
    rewrite elem_of_cons. naive_solver.
  - by rewrite remove_absent.
Qed.

Lemma contains_get c k : contains c k = false ↔ get c k = Throw out_of_range.
Proof.
  unfold contains, get. rewrite chain_contains_get.
  by destruct (chain_get _ _).
Qed.

(** A table is the map its calls describe. *)
Lemma get_run (ops : list op) initialCapacity k :
  in_int initialCapacity →
  get (run ops (new initialCapacity)) k
  = match lookup_after ops k with Some v => Ret v | None => Throw out_of_range end.
Proof.
  intros Hc. induction ops as [|o ops IH] using rev_ind.
  - apply get_out_of_range; [by apply wf_new|].
    unfold entries, ChainHash.new. simpl. rewrite join_replicate_nil. apply not_elem_of_nil.
  - assert (wf (run ops (new initialCapacity))) as Hwf by by apply wf_run, wf_new.
    rewrite run_snoc. unfold lookup_after in *. rewrite fold_left_app. simpl.
    destruct o as [k' v|k']; simpl; case_decide as Hk; subst.
    + by apply get_set_eq.
    + rewrite get_set_ne by done. apply IH.
    + by apply get_remove_eq.
    + rewrite get_remove_ne by done. apply IH.
Qed.

(** *** Capacity *)

Lemma capacity_push_front c k v : capacity (push_front c k v) = capacity c.
Proof. done. Qed.

Lemma capacity_remove c k : capacity (remove c k).1 = capacity c.
Proof. unfold ChainHash.remove. by destruct (chain_remove _ _). Qed.

Lemma grown_gt cap : 0 < cap → cap < grown cap.
Proof. unfold grown. destruct (Z.ltb_spec cap (2 ^ 30)); lia. Qed.

Lemma capacity_rehashing c : wf c → capacity c ≤ capacity (rehashing c).1.
Proof.
  intros Hwf. destruct (decide (capacity c = INT_MAX)) as [Hmax|Hne].
  - by rewrite rehashing_throws.
  - pose proof Hwf as ([? ?] & _).
    destruct (rehashing_returns c Hwf) as (_ & _ & _ & _ & ->); [lia|].
    pose proof (grown_gt (capacity c)). lia.
Qed.

Lemma capacity_set c k v : wf c → capacity c ≤ capacity (set c k v).1.
Proof.
  intros Hwf. destruct (contains c k) eqn:Hc.
  - destruct (set_present_spec c k v Hwf Hc) as (_ & _ & _ & _ & _ & -> & _). lia.
  - rewrite set_absent by done. destruct (overloaded _ _); [|simpl; lia].
    rewrite <- (capacity_push_front c k v) at 1.
    by apply capacity_rehashing, push_front_spec.
Qed.

Lemma capacity_step c (o : op) : wf c → capacity c ≤ capacity (step c o).
Proof.
  destruct o; simpl; [apply capacity_set|]. rewrite capacity_remove. lia.
Qed.

Lemma capacity_run (ops : list op) c : wf c → capacity c ≤ capacity (run ops c).
Proof.
  revert c. induction ops as [|o ops IH]; intros c Hwf; simpl; [lia|].
  pose proof (capacity_step c o Hwf). pose proof (IH _ (wf_step c o Hwf)). lia.
Qed.

(** *** When [set] calls [rehashing] *)

Lemma bucket_sizes_length c : wf c → length (bucket_sizes c) = length (array c).
Proof. intros (_ & _ & -> & _). unfold lengths. by rewrite length_fmap. Qed.

(** The counters [set] tests after it has pushed a new node, in terms of
    the table before the call. *)
Lemma push_front_counters c k v :
  wf c →
  bucket_sizes (push_front c k v) !!! index_of c k = bucket_sizes c !!! index_of c k + 1
  ∧ usedBuckets (push_front c k v)
    = (if bucket_sizes c !!! index_of c k =? 0 then usedBuckets c + 1 else usedBuckets c).
Proof.
  intros Hwf. unfold ChainHash.push_front. simpl. split; [|done].
  apply list_lookup_total_insert_eq. rewrite bucket_sizes_length by done.
  by apply index_of_lt.
Qed.

Lemma overloaded_push_front c k v :
  wf c →
  overloaded (push_front c k v) (index_of c k)
  = (maxColision <? bucket_sizes c !!! index_of c k + 1)
    || Float.gt
         (Float.ratio
            (if bucket_sizes c !!! index_of c k =? 0 then usedBuckets c + 1
             else usedBuckets c)
            (capacity c))
         (Float.of_float maxFillFactor).
Proof.
  intros Hwf. unfold overloaded, fillFactor.
  destruct (push_front_counters c k v Hwf) as [-> ->]. done.
Qed.

Lemma contains_set_ne c k v k' :
  wf c → k' ≠ k → contains (set c k v).1 k' = contains c k'.
Proof.
  intros Hwf Hne. pose proof (get_set_ne c k v k' Hwf Hne) as Hget.
  destruct (contains c k') eqn:Hc; destruct (contains (set c k v).1 k') eqn:Hc'; try done.
  - apply contains_get in Hc'. rewrite Hc' in Hget. symmetry in Hget.
    apply contains_get in Hget. congruence.
  - apply contains_get in Hc. rewrite Hc in Hget. apply contains_get in Hget. congruence.
Qed.

Lemma contains_new initialCapacity k : contains (new initialCapacity) k = false.
Proof.
  unfold contains, bucket, ChainHash.new. simpl.
  rewrite list_lookup_total_alt.
  destruct (_ !! _) as [l|] eqn:Hl; simpl; [|done].
  by apply lookup_replicate in Hl as [-> _].
Qed.

Lemma capacity_new initialCapacity :
  0 < initialCapacity → capacity (new initialCapacity) = initialCapacity.
Proof. intros Hc. unfold ChainHash.new. simpl. destruct (Z.leb_spec initialCapacity 0); lia. Qed.

Lemma counters_new initialCapacity (i : nat) :
  0 < initialCapacity → (i < Z.to_nat initialCapacity)%nat →
  bucket_sizes (new initialCapacity) !!! i = 0 ∧ usedBuckets (new initialCapacity) = 0.
Proof.
  intros Hc Hi. unfold ChainHash.new. simpl. split; [|done].
  destruct (Z.leb_spec initialCapacity 0); [lia|].
  by apply lookup_total_replicate_2.
Qed.

(** A call of [set] on an absent key that does not end in [rehashing]. *)
Lemma set_absent_quiet c k v (i : nat) n u :
  wf c → contains c k = false → index_of c k = i →
  bucket_sizes c !!! i = n → n + 1 ≤ maxColision →
  (if n =? 0 then usedBuckets c + 1 else usedBuckets c) = u →
  Float.gt (Float.ratio u (capacity c)) (Float.of_float maxFillFactor) = false →
  wf (set c k v).1
  ∧ capacity (set c k v).1 = capacity c
  ∧ bucket_sizes (set c k v).1 !!! i = n + 1
  ∧ usedBuckets (set c k v).1 = u
  ∧ set c k v = (push_front c k v, Ret ()).
Proof.
  intros Hwf Hc <- Hn Hle <- Hfill.
  pose proof (overloaded_push_front c k v Hwf) as Hov.
  rewrite Hn, Hfill in Hov. destruct (Z.ltb_spec maxColision (n + 1)); [lia|].
  rewrite set_absent, Hov by done. simpl.
  destruct (push_front_counters c k v Hwf) as [Hbs Hub]. rewrite Hn in Hbs, Hub.
  split_and!; [by apply push_front_spec|reflexivity|exact Hbs|exact Hub|reflexivity].
Qed.

(** The number of used buckets once a node is pushed lies between 1 and
    the capacity. *)
Lemma used_after_bounds c k :
  wf c →
  0 < (if bucket_sizes c !!! index_of c k =? 0 then usedBuckets c + 1 else usedBuckets c)
    ≤ capacity c.
Proof.
  intros Hwf. pose proof (bucket_sizes_lookup c k Hwf) as Hn.
  pose proof (bucket_sizes_length c Hwf) as Hlen.
  destruct Hwf as (Hcap & Hlen' & _ & -> & _).
  rewrite (lookup_total_Some _ _ _ Hn).
  destruct (insert_split _ _ _ 0 Hn) as (pre & post & Hsplit & _).
  rewrite Hsplit in Hlen |- *. rewrite length_app in Hlen. simpl in Hlen.
  rewrite count_pos_app, count_pos_cons.
  pose proof (count_pos_bounds pre). pose proof (count_pos_bounds post).
  destruct (Z.eqb_spec (Z.of_nat (length (bucket c (index_of c k)))) 0);
    destruct (Z.ltb_spec 0 (Z.of_nat (length (bucket c (index_of c k))))); lia.
Qed.

(** Four keys of one bucket, set one after the other in a new table whose
    capacity is at least [2 ^ 30]: the fourth call ends in [rehashing], and
    the capacity grows by one. *)
Lemma fourth_collision_grows_by_one initialCapacity (i : nat) k1 k2 k3 k4 v :
  2 ^ 30 ≤ initialCapacity < INT_MAX →
  NoDup [k1; k2; k3; k4] →
  Forall (λ k, Z.to_nat (hash k `mod` initialCapacity) = i) [k1; k2; k3; k4] →
  Float.gt (Float.ratio 1 initialCapacity) (Float.of_float maxFillFactor) = false →
  let c := run [Set_ k1 v; Set_ k2 v; Set_ k3 v] (new initialCapacity) in
  bucket_count c = initialCapacity
  ∧ contains c k4 = false
  ∧ bucket_size c (Z.of_nat i) = Ret 3
  ∧ set c k4 v = rehashing (push_front c k4 v)
  ∧ (set c k4 v).2 = Ret ()
  ∧ bucket_count (set c k4 v).1 = initialCapacity + 1.
Proof.
  intros Hcap Hnd Hidx Hfill c.
  assert (k2 ≠ k1 ∧ k3 ≠ k1 ∧ k3 ≠ k2 ∧ k4 ≠ k1 ∧ k4 ≠ k2 ∧ k4 ≠ k3)
    as (H21 & H31 & H32 & H41 & H42 & H43).
  { rewrite !NoDup_cons in Hnd. repeat setoid_rewrite not_elem_of_cons in Hnd.
    destruct Hnd as ((? & ? & ? & _) & (? & ? & _) & (? & _) & _).
    split_and!; congruence. }
  rewrite !Forall_cons in Hidx. destruct Hidx as (Hi1 & Hi2 & Hi3 & Hi4 & _).
  assert (in_int initialCapacity) as Hint by (unfold in_int, INT_MIN, INT_MAX in *; lia).
  set (c0 := new initialCapacity).
  assert (wf c0) as Hwf0 by by apply wf_new.
  assert (capacity c0 = initialCapacity) as Hc0 by (apply capacity_new; lia).
  assert (i < Z.to_nat initialCapacity)%nat as Hi.
  { rewrite <- Hi1. pose proof (Z.mod_pos_bound (hash k1) initialCapacity). lia. }
  destruct (counters_new initialCapacity i) as [Hbs0 Hub0]; [lia|done|].
  fold c0 in Hbs0, Hub0.
  assert (∀ c' k, capacity c' = initialCapacity →
            Z.to_nat (hash k `mod` initialCapacity) = i → index_of c' k = i) as Hindex.
  { intros c' k Hc' Hk. unfold ChainHash.index_of, getHashCode. by rewrite Hc'. }
  (* the first key *)
  destruct (set_absent_quiet c0 k1 v i 0 1 Hwf0) as (Hwf1 & Hc1 & Hbs1 & Hub1 & _);
    [apply contains_new|by apply Hindex|done|unfold maxColision; lia
    |by rewrite Hub0|by rewrite Hc0|].
  set (c1 := (set c0 k1 v).1) in *. rewrite Hc0 in Hc1.
  assert (∀ k, k ≠ k1 → contains c1 k = false) as Hnew1.
  { intros k Hk. unfold c1. rewrite contains_set_ne by done. apply contains_new. }
  (* the second key *)
  destruct (set_absent_quiet c1 k2 v i 1 1 Hwf1) as (Hwf2 & Hc2 & Hbs2 & Hub2 & _);
    [by apply Hnew1|by apply Hindex|exact Hbs1|unfold maxColision; lia
    |exact Hub1|by rewrite Hc1|].
  set (c2 := (set c1 k2 v).1) in *. rewrite Hc1 in Hc2.
  assert (∀ k, k ≠ k1 → k ≠ k2 → contains c2 k = false) as Hnew2.
  { intros k Hk Hk'. unfold c2. rewrite contains_set_ne by done. by apply Hnew1. }
  (* the third key *)
  destruct (set_absent_quiet c2 k3 v i 2 1 Hwf2) as (Hwf3 & Hc3 & Hbs3 & Hub3 & _);
    [by apply Hnew2|by apply Hindex|exact Hbs2|unfold maxColision; lia
    |exact Hub2|by rewrite Hc2|].
  set (c3 := (set c2 k3 v).1) in *. rewrite Hc2 in Hc3.
  (* the fourth key *)
  change c with c3.
  assert (contains c3 k4 = false) as Hc4.
  { unfold c3. rewrite contains_set_ne by done. by apply Hnew2. }
  assert (overloaded (push_front c3 k4 v) (index_of c3 k4) = true) as Hov.
  { rewrite overloaded_push_front, Hindex, Hbs3 by done. done. }
  destruct (push_front_spec c3 k4 v Hwf3 Hc4) as [Hwf4 _].
  destruct (rehashing_returns _ Hwf4) as (Hret & _ & _ & _ & Hgrown).
  { rewrite capacity_push_front. lia. }
  rewrite capacity_push_front, Hc3 in Hgrown.
  unfold bucket_count. rewrite set_absent, Hov by exact Hc4.
  split_and!; [exact Hc3|exact Hc4| |reflexivity|exact Hret|].
  - unfold ChainHash.bucket_size. rewrite Hc3, Nat2Z.id, Hbs3.
    destruct (Z.ltb_spec (Z.of_nat i) 0); [lia|].
    destruct (Z.leb_spec initialCapacity (Z.of_nat i)); [lia|reflexivity].
  - rewrite Hgrown. unfold grown. destruct (Z.ltb_spec initialCapacity (2 ^ 30)); lia.
Qed.

(** The same four keys in a new table of the largest capacity: the fourth
    call ends in [rehashing], whose allocation throws, and the capacity
    stays. *)
Lemma fourth_collision_at_largest_capacity initialCapacity (i : nat) k1 k2 k3 k4 v :
  initialCapacity = INT_MAX →
  NoDup [k1; k2; k3; k4] →
  Forall (λ k, Z.to_nat (hash k `mod` initialCapacity) = i) [k1; k2; k3; k4] →
  Float.gt (Float.ratio 1 initialCapacity) (Float.of_float maxFillFactor) = false →
  let c := run [Set_ k1 v; Set_ k2 v; Set_ k3 v] (new initialCapacity) in
  bucket_count c = initialCapacity
  ∧ contains c k4 = false
  ∧ bucket_size c (Z.of_nat i) = Ret 3
  ∧ set c k4 v = rehashing (push_front c k4 v)
  ∧ (set c k4 v).2 = Throw bad_array_new_length
  ∧ bucket_count (set c k4 v).1 = initialCapacity.
Proof.
  intros Hcap Hnd Hidx Hfill c.
  assert (k2 ≠ k1 ∧ k3 ≠ k1 ∧ k3 ≠ k2 ∧ k4 ≠ k1 ∧ k4 ≠ k2 ∧ k4 ≠ k3)
    as (H21 & H31 & H32 & H41 & H42 & H43).
  { rewrite !NoDup_cons in Hnd. repeat setoid_rewrite not_elem_of_cons in Hnd.
    destruct Hnd as ((? & ? & ? & _) & (? & ? & _) & (? & _) & _).
    split_and!; congruence. }
  rewrite !Forall_cons in Hidx. destruct Hidx as (Hi1 & Hi2 & Hi3 & Hi4 & _).
  assert (0 < initialCapacity) as Hpos by (unfold INT_MAX in Hcap; lia).
  assert (in_int initialCapacity) as Hint by (unfold in_int, INT_MIN, INT_MAX in *; lia).
  set (c0 := new initialCapacity).
  assert (wf c0) as Hwf0 by by apply wf_new.
  assert (capacity c0 = initialCapacity) as Hc0 by (apply capacity_new; lia).
  assert (i < Z.to_nat initialCapacity)%nat as Hi.
  { rewrite <- Hi1. pose proof (Z.mod_pos_bound (hash k1) initialCapacity). lia. }
  destruct (counters_new initialCapacity i) as [Hbs0 Hub0]; [lia|done|].
  fold c0 in Hbs0, Hub0.
  assert (∀ c' k, capacity c' = initialCapacity →
            Z.to_nat (hash k `mod` initialCapacity) = i → index_of c' k = i) as Hindex.
  { intros c' k Hc' Hk. unfold ChainHash.index_of, getHashCode. by rewrite Hc'. }
  (* the first key *)
  destruct (set_absent_quiet c0 k1 v i 0 1 Hwf0) as (Hwf1 & Hc1 & Hbs1 & Hub1 & _);
    [apply contains_new|by apply Hindex|done|unfold maxColision; lia
    |by rewrite Hub0|by rewrite Hc0|].
  set (c1 := (set c0 k1 v).1) in *. rewrite Hc0 in Hc1.
  assert (∀ k, k ≠ k1 → contains c1 k = false) as Hnew1.
  { intros k Hk. unfold c1. rewrite contains_set_ne by done. apply contains_new. }
  (* the second key *)
  destruct (set_absent_quiet c1 k2 v i 1 1 Hwf1) as (Hwf2 & Hc2 & Hbs2 & Hub2 & _);
    [by apply Hnew1|by apply Hindex|exact Hbs1|unfold maxColision; lia
    |exact Hub1|by rewrite Hc1|].
  set (c2 := (set c1 k2 v).1) in *. rewrite Hc1 in Hc2.
  assert (∀ k, k ≠ k1 → k ≠ k2 → contains c2 k = false) as Hnew2.
  { intros k Hk Hk'. unfold c2. rewrite contains_set_ne by done. by apply Hnew1. }
  (* the third key *)
  destruct (set_absent_quiet c2 k3 v i 2 1 Hwf2) as (Hwf3 & Hc3 & Hbs3 & Hub3 & _);
    [by apply Hnew2|by apply Hindex|exact Hbs2|unfold maxColision; lia
    |exact Hub2|by rewrite Hc2|].
  set (c3 := (set c2 k3 v).1) in *. rewrite Hc2 in Hc3.
  (* the fourth key *)
  change c with c3.
  assert (contains c3 k4 = false) as Hc4.
  { unfold c3. rewrite contains_set_ne by done. by apply Hnew2. }
  assert (overloaded (push_front c3 k4 v) (index_of c3 k4) = true) as Hov.
  { rewrite overloaded_push_front, Hindex, Hbs3 by done. done. }
  assert (rehashing (push_front c3 k4 v)
          = (push_front c3 k4 v, Throw bad_array_new_length)) as Hthrows.
  { apply rehashing_throws. rewrite capacity_push_front. congruence. }
  unfold bucket_count. rewrite set_absent, Hov by exact Hc4.
  split_and!; [exact Hc3|exact Hc4| |reflexivity|by rewrite Hthrows|].
  - unfold ChainHash.bucket_size. rewrite Hc3, Nat2Z.id, Hbs3.
    destruct (Z.ltb_spec (Z.of_nat i) 0); [lia|].
    destruct (Z.leb_spec initialCapacity (Z.of_nat i)); [lia|reflexivity].
  - rewrite Hthrows. simpl. exact Hc3.
Qed.

(** The capacity after [rehashing] depends on the capacity only. *)
Lemma rehashing_capacity c :
  0 < capacity c < INT_MAX →
  (rehashing c).2 = Ret () ∧ capacity (rehashing c).1 = grown (capacity c).
Proof.
  intros Hcap. unfold ChainHash.rehashing.
  rewrite rehashing_newCap by lia.
  destruct (Z.eqb_spec (capacity c) INT_MAX) as [|_]; [lia|].
  pose proof (grown_gt (capacity c)).
  destruct (Z.ltb_spec (grown (capacity c)) 0) as [|_]; [lia|].
  by destruct (fold_left _ _ _) as [[a bs] ub].
Qed.

(** Below the largest capacity [set] returns, and the capacity at most
    doubles, plus one. *)
Lemma set_returns c k v :
  wf c → capacity c < INT_MAX →
  (set c k v).2 = Ret () ∧ capacity (set c k v).1 ≤ 2 * capacity c + 1.
Proof.
  intros Hwf Hlt. pose proof Hwf as ([Hpos _] & _).
  destruct (contains c k) eqn:Hc.
  - destruct (set_present_spec c k v Hwf Hc) as (_ & -> & _ & _ & _ & -> & _).
    split; [done|lia].
  - rewrite set_absent by done. destruct (overloaded _ _); [|simpl; split; [done|lia]].
    destruct (rehashing_capacity (push_front c k v)) as [-> ->];
      [rewrite capacity_push_front; lia|].
    rewrite capacity_push_front. split; [done|].
    unfold grown. destruct (Z.ltb_spec (capacity c) (2 ^ 30)); lia.
Qed.

(** *** The properties of the specification *)

(** C1: for every key k and value v, immediately after set(k, v) on any
    table, get(k) returns v and contains(k) returns true. *)
Theorem set_get_contains c k v :
  wf c → get (set c k v).1 k = Ret v ∧ contains (set c k v).1 k = true.
Proof.
  intros Hwf. pose proof (get_set_eq c k v Hwf) as Hget. split; [done|].
  destruct (contains _ k) eqn:Hc; [done|].
  apply contains_get in Hc. congruence.
Qed.

(** C2: rehashing preserves content.  After any sequence of set calls a
    table returns for every key the value set last (and throws for a key
    never set), whatever rehashes the calls forced; it holds no key twice
    and size() is the number of its entries.  A rehash of a table keeps the
    entries, up to their order, the answers of get and size(). *)
Theorem rehash_preserves_content initialCapacity (sets : list (K * V)) :
  in_int initialCapacity →
  let c := run ((λ kv, Set_ kv.1 kv.2) <$> sets) (new initialCapacity) in
  (∀ k, get c k =
        match lookup_after ((λ kv, Set_ kv.1 kv.2) <$> sets) k with
        | Some v => Ret v
        | None => Throw out_of_range
        end)
  ∧ NoDup (entries c).*1
  ∧ size c = Z.of_nat (length (entries c))
  ∧ (∀ c0, wf c0 →
       entries (rehashing c0).1 ≡ₚ entries c0
       ∧ size (rehashing c0).1 = size c0
       ∧ ∀ k, get (rehashing c0).1 k = get c0 k).
Proof.
  intros Hc c. split_and!.
  - intros k. by apply get_run.
  - assert (wf c) as (_ & _ & _ & _ & _ & _ & ?) by by apply wf_run, wf_new. done.
  - assert (wf c) as (_ & _ & _ & _ & ? & _) by by apply wf_run, wf_new. done.
  - intros c0 Hwf. destruct (decide (capacity c0 = INT_MAX)) as [Hmax|Hne].
    + by rewrite rehashing_throws.
    + pose proof Hwf as ([? ?] & _).
      destruct (rehashing_returns c0 Hwf) as (_ & Hwf' & Hp & Hn & _); [lia|].
      split_and!; [done..|]. intros k. by apply get_ext.
Qed.


(** C4 (amended): set ends in a rehash exactly when the key is absent and,
    once its node is pushed, the size of its bucket exceeds 3 or the fill
    factor exceeds the float 0.8: the quotient usedBuckets / capacity, a
    double, exceeds 13421773 / 2 ^ 24 by more than 2 ^ -54, which below
    2 ^ 24 buckets is to exceed 0.8.  Without a rehash set returns and the
    capacity is as before.  With one, the new capacity is
    2 * capacity + 1 below 2 ^ 30 and capacity + 1 from there on, up to the
    largest int, where the allocation of the rehash throws and the capacity
    stays. *)
Theorem set_rehash_trigger c k v :
  wf c →
  let i := index_of c k in
  let size_after := bucket_sizes c !!! i + 1 in
  let used_after :=
    if bucket_sizes c !!! i =? 0 then usedBuckets c + 1 else usedBuckets c in
  let fill_exceeds :=
    Float.gt (Float.ratio used_after (capacity c)) (Float.of_float maxFillFactor) in
  let trigger := negb (contains c k) && ((maxColision <? size_after) || fill_exceeds) in
  bucket_size c (Z.of_nat i) = Ret (bucket_sizes c !!! i)
  ∧ bucket_sizes (push_front c k v) !!! i = size_after
  ∧ usedBuckets (push_front c k v) = used_after
  ∧ (fill_exceeds = true ↔ (13421773 * 2 ^ 30 + 1) * capacity c < 2 ^ 54 * used_after)
  ∧ (capacity c < 2 ^ 24 → (fill_exceeds = true ↔ 4 * capacity c < 5 * used_after))
  ∧ (trigger = true ↔ set c k v = rehashing (push_front c k v))
  ∧ (trigger = false →
       (set c k v).2 = Ret () ∧ bucket_count (set c k v).1 = bucket_count c)
  ∧ (trigger = true → bucket_count c < 2 ^ 30 →
       (set c k v).2 = Ret () ∧ bucket_count (set c k v).1 = 2 * bucket_count c + 1)
  ∧ (trigger = true → 2 ^ 30 ≤ bucket_count c < INT_MAX →
       (set c k v).2 = Ret () ∧ bucket_count (set c k v).1 = bucket_count c + 1)
  ∧ (trigger = true → bucket_count c = INT_MAX →
       (set c k v).2 = Throw bad_array_new_length
       ∧ bucket_count (set c k v).1 = bucket_count c).
Proof.
  intros Hwf i size_after used_after fill_exceeds trigger. unfold bucket_count.
  pose proof Hwf as ([Hpos Hmax] & _).
  pose proof (index_of_lt c k Hwf) as Hlt.
  pose proof (used_after_bounds c k Hwf) as Hused.
  destruct (push_front_counters c k v Hwf) as [Hbs Hub].
  assert (capacity (push_front c k v) = capacity c) as Hcp by done.
  assert (trigger = false →
          (set c k v).2 = Ret () ∧ capacity (set c k v).1 = capacity c) as Hquiet.
  { unfold trigger, fill_exceeds, size_after, used_after, i.
    destruct (contains c k) eqn:Hc; cbn [negb andb].
    - intros _. by destruct (set_present_spec c k v Hwf Hc) as (_ & -> & _ & _ & _ & -> & _).
    - intros Hov. rewrite set_absent by done.
      by rewrite overloaded_push_front, Hov by done. }
  assert (trigger = true → set c k v = rehashing (push_front c k v)) as Hloud.
  { unfold trigger, fill_exceeds, size_after, used_after, i.
    destruct (contains c k) eqn:Hc; cbn [negb andb]; [done|].
    intros Hov. rewrite set_absent by done.
    by rewrite overloaded_push_front, Hov by done. }
  split_and!.
  - unfold ChainHash.bucket_size. rewrite Nat2Z.id.
    destruct (Z.ltb_spec (Z.of_nat i) 0); [lia|].
    destruct (Z.leb_spec (capacity c) (Z.of_nat i)); [|done].
    destruct Hwf as (_ & Hlen & _). lia.
  - exact Hbs.
  - exact Hub.
  - by apply FloatFacts.fill_exceeds_spec.
  - intros Hsmall. by apply FloatFacts.fill_exceeds_small.
  - split; [done|]. intros Heq. destruct trigger; [done|].
    destruct (Hquiet eq_refl) as [Hret Hsame]. rewrite Heq in Hret, Hsame.
    destruct (decide (capacity c = INT_MAX)) as [Hc|Hc].
    + rewrite rehashing_throws in Hret by by rewrite Hcp. done.
    + destruct (rehashing_capacity (push_front c k v)) as [_ Hg]; [rewrite Hcp; lia|].
      rewrite Hg, Hcp in Hsame. pose proof (grown_gt (capacity c)). lia.
  - done.
  - intros Ht Hc. rewrite Hloud by done.
    destruct (rehashing_capacity (push_front c k v)) as [-> ->];
      [unfold INT_MAX in *; rewrite Hcp; lia|].
    rewrite Hcp. unfold grown. destruct (Z.ltb_spec (capacity c) (2 ^ 30)); [done|lia].
  - intros Ht Hc. rewrite Hloud by done.
    destruct (rehashing_capacity (push_front c k v)) as [-> ->]; [rewrite Hcp; lia|].
    rewrite Hcp. unfold grown. destruct (Z.ltb_spec (capacity c) (2 ^ 30)); [lia|done].
  - intros Ht Hc. rewrite Hloud by done. by rewrite rehashing_throws by by rewrite Hcp.
Qed.

(** C5: remove(k) on a key that is present returns true, and afterwards
    the key is absent: contains(k) is false, get(k) throws and a second
    remove(k) returns false.  On a key that is absent remove returns
    false. *)
Theorem remove_present_then_absent c k :
  wf c →
  (contains c k = true →
     (remove c k).2 = true
     ∧ contains (remove c k).1 k = false
     ∧ get (remove c k).1 k = Throw out_of_range
     ∧ (remove (remove c k).1 k).2 = false)
  ∧ (contains c k = false → (remove c k).2 = false).
Proof.
  intros Hwf. split.
  - intros Hc. pose proof (get_remove_eq c k Hwf) as Hget.
    apply contains_get in Hget as Hc'.
    split_and!; [by apply remove_present_spec|done..|by rewrite remove_absent].
  - intros Hc. by rewrite remove_absent.
Qed.

(** C6: set(k, v2) on a table that holds k overwrites the value of k in
    place.  It returns without a rehash; get(k) is v2; size(),
    bucket_count(), usedBuckets and every bucket_size(i) are as before; the
    keys of every chain are as before, in the same order; and the node of
    every other key is untouched. *)
Theorem set_overwrite c k v2 :
  wf c → contains c k = true →
  let c' := (set c k v2).1 in
  (set c k v2).2 = Ret ()
  ∧ get c' k = Ret v2
  ∧ size c' = size c
  ∧ bucket_count c' = bucket_count c
  ∧ usedBuckets c' = usedBuckets c
  ∧ (∀ i, bucket_size c' i = bucket_size c i)
  ∧ (∀ i, (bucket c' i).*1 = (bucket c i).*1)
  ∧ (∀ i, filter (λ n, n.1 ≠ k) (bucket c' i) = filter (λ n, n.1 ≠ k) (bucket c i))
  ∧ (∀ k', k' ≠ k → get c' k' = get c k').
Proof.
  intros Hwf Hc c'.
  destruct (set_present_spec c k v2 Hwf Hc)
    as (_ & Hret & (pre & v0 & post & Hb & _ & Ha) & _ & Hn & Hcap & Hbs & Hub).
  pose proof (index_of_lt c k Hwf) as Hlt.
  assert (∀ i, i ≠ index_of c k → bucket c' i = bucket c i) as Hother.
  { intros i Hi. unfold bucket, c'. rewrite Ha. by apply list_lookup_total_insert_ne. }
  assert (bucket c' (index_of c k) = pre ++ (k, v2) :: post) as Hb'.
  { unfold bucket, c'. rewrite Ha. by apply list_lookup_total_insert_eq. }
  split_and!; try done.
  - by apply get_set_eq.
  - intros i. unfold ChainHash.bucket_size, c'. by rewrite Hcap, Hbs.
  - intros i. destruct (decide (i = index_of c k)) as [->|Hi]; [|by rewrite Hother].
    rewrite Hb, Hb'. by rewrite !fmap_app, !fmap_cons.
  - intros i. destruct (decide (i = index_of c k)) as [->|Hi]; [|by rewrite Hother].
    rewrite Hb, Hb'. rewrite !filter_app, !filter_cons. simpl.
    by destruct (decide (k ≠ k)).
  - intros k' Hk'. by apply get_set_ne.
Qed.

(** C7: get(k) throws KeyNotFound ([out_of_range]) exactly when contains(k)
    is false, and throws nothing else; when contains(k) is true it returns
    the value of a node of that key in the bucket of the key. *)
Theorem get_throws_iff_not_contains c k :
  (get c k = Throw out_of_range ↔ contains c k = false)
  ∧ (∀ e, get c k = Throw e → e = out_of_range)
  ∧ (contains c k = true → ∃ v, get c k = Ret v ∧ (k, v) ∈ bucket c (index_of c k)).
Proof.
  split_and!.
  - symmetry. apply contains_get.
  - apply get_Throw.
  - unfold contains, get. intros Hc.
    destruct (chain_get _ _) as [v|] eqn:Hget.
    + exists v. split; [done|]. by apply chain_get_Some.
    + apply chain_contains_get in Hget. congruence.
Qed.

(** C8 (amended): across every sequence of set and remove calls
    bucket_count() never decreases.  A rehash of a table of fewer than
    2 ^ 31 - 1 buckets returns and leaves a strictly larger capacity; a
    rehash of a table of 2 ^ 31 - 1 buckets throws from its allocation and
    leaves the table, and so the capacity, as it was.  The same holds of
    the set that calls the rehash, and remove leaves the capacity as it
    was. *)
Theorem bucket_count_monotone initialCapacity (ops more : list op) :
  in_int initialCapacity →
  bucket_count (run ops (new initialCapacity))
  ≤ bucket_count (run (ops ++ more) (new initialCapacity))
  ∧ (∀ c, wf c →
       ((rehashing c).2 = Ret () → bucket_count c < bucket_count (rehashing c).1)
       ∧ (∀ e, (rehashing c).2 = Throw e → (rehashing c).1 = c)
       ∧ (∀ k, bucket_count (remove c k).1 = bucket_count c)
       ∧ (bucket_count c < INT_MAX →
            (rehashing c).2 = Ret () ∧ bucket_count c < bucket_count (rehashing c).1)
       ∧ (bucket_count c = INT_MAX → rehashing c = (c, Throw bad_array_new_length))
       ∧ (∀ k v,
            contains c k = false →
            overloaded (push_front c k v) (index_of c k) = true →
            set c k v = rehashing (push_front c k v)
            ∧ (bucket_count c < INT_MAX →
                 (set c k v).2 = Ret () ∧ bucket_count c < bucket_count (set c k v).1)
            ∧ (bucket_count c = INT_MAX →
                 (set c k v).2 = Throw bad_array_new_length
                 ∧ bucket_count (set c k v).1 = bucket_count c))).
Proof.
  intros Hc. split.
  - unfold ChainHash.run. rewrite fold_left_app. apply capacity_run.
    by apply wf_run, wf_new.
  - intros c Hwf. unfold bucket_count.
    assert (capacity c < INT_MAX →
            (rehashing c).2 = Ret () ∧ capacity c < capacity (rehashing c).1) as Hgrows.
    { intros Hlt. destruct (rehashing_returns c Hwf Hlt) as (Hret & _ & _ & _ & ->).
      split; [done|]. apply grown_gt. by destruct Hwf as ([? ?] & _). }
    split_and!; [| |intros k; apply capacity_remove|exact Hgrows|apply rehashing_throws|].
    + destruct (decide (capacity c = INT_MAX)) as [Hmax|Hne].
      * by rewrite rehashing_throws.
      * pose proof Hwf as ([? ?] & _). intros _. apply Hgrows. lia.
    + intros e. destruct (decide (capacity c = INT_MAX)) as [Hmax|Hne].
      * by rewrite rehashing_throws.
      * pose proof Hwf as ([? ?] & _).
        destruct (rehashing_returns c Hwf) as (-> & _); [lia|done].
    + intros k v Hk Hov.
      assert (set c k v = rehashing (push_front c k v)) as Hset
        by by rewrite set_absent, Hov.
      rewrite Hset. split; [done|]. split.
      * intros Hlt. pose proof Hwf as ([? ?] & _).
        destruct (rehashing_capacity (push_front c k v)) as [-> ->];
          [rewrite capacity_push_front; lia|].
        rewrite capacity_push_front. split; [done|]. by apply grown_gt.
      * intros Hmax. by rewrite rehashing_throws by by rewrite capacity_push_front.
Qed.

(** C10: remove(k) on a key that is absent returns false and leaves the
    table as it was: the chains and their order, size(), bucket_count(),
    usedBuckets and every bucket size. *)
Theorem remove_absent_unchanged c k :
  contains c k = false →
  (remove c k).2 = false
  ∧ (remove c k).1 = c
  ∧ array (remove c k).1 = array c
  ∧ size (remove c k).1 = size c
  ∧ bucket_count (remove c k).1 = bucket_count c
  ∧ usedBuckets (remove c k).1 = usedBuckets c
  ∧ (∀ i, bucket_size (remove c k).1 i = bucket_size c i).
Proof.
  unfold contains, ChainHash.remove. intros Hc.
  apply chain_contains_get, chain_remove_None in Hc. by rewrite Hc.
Qed.


(** *** Further properties of the table *)

(** X1: the constructor.  A new table has the capacity it was asked for, and
    10 buckets when that is zero or negative; it holds nothing: size() is 0,
    every bucket is empty, contains is false, get throws [out_of_range] and
    remove returns false for every key.  bucket_size and begin throw
    [out_of_range] outside the buckets. *)
Theorem new_is_empty initialCapacity :
  let c := new initialCapacity in
  bucket_count c = (if initialCapacity <=? 0 then 10 else initialCapacity)
  ∧ size c = 0
  ∧ (∀ i, 0 ≤ i < bucket_count c → bucket_size c i = Ret 0 ∧ iterate c i = Ret [])
  ∧ (∀ i, i < 0 ∨ bucket_count c ≤ i →
       bucket_size c i = Throw out_of_range ∧ iterate c i = Throw out_of_range)
  ∧ (∀ k, contains c k = false ∧ get c k = Throw out_of_range ∧ remove c k = (c, false)).
Proof.
  intros c. split_and!; [done|done| | |].
  - intros i Hi. unfold bucket_count, ChainHash.bucket_size, ChainHash.iterate, bucket in *.
    destruct (Z.ltb_spec i 0); [lia|]. destruct (Z.leb_spec (capacity c) i); [lia|].
    simpl in *. rewrite !lookup_total_replicate_2 by lia. done.
  - intros i Hi. unfold bucket_count, ChainHash.bucket_size, ChainHash.iterate in *.
    destruct (Z.ltb_spec i 0); [done|]. destruct (Z.leb_spec (capacity c) i); [done|lia].
  - intros k. pose proof (contains_new initialCapacity k) as Hc.
    split_and!; [done|by apply contains_get|by apply remove_absent].
Qed.

(** X2: bucket_size(i) and begin(i) throw [out_of_range] exactly when i is
    negative or not below bucket_count().  For a valid i the iteration from
    begin(i) to end(i) visits bucket_size(i) nodes, no key twice, and they
    are the pairs (k, v) with get(k) = v whose key hashes to bucket i. *)
Theorem bucket_iteration c i :
  wf c →
  (bucket_size c i = Throw out_of_range ↔ i < 0 ∨ bucket_count c ≤ i)
  ∧ (iterate c i = Throw out_of_range ↔ i < 0 ∨ bucket_count c ≤ i)
  ∧ (0 ≤ i < bucket_count c →
       ∃ nodes, iterate c i = Ret nodes
         ∧ bucket_size c i = Ret (Z.of_nat (length nodes))
         ∧ NoDup nodes.*1
         ∧ ∀ k v, (k, v) ∈ nodes ↔ get c k = Ret v ∧ Z.of_nat (index_of c k) = i).
Proof.
  intros Hwf. pose proof Hwf as (Hcap & Hlen & Hbs & Hub & Hn & Hpl & Hnd).
  unfold bucket_count, ChainHash.bucket_size, ChainHash.iterate.
  destruct (Z.ltb_spec i 0); [split_and!; [split; [lia|done]..|lia]|].
  destruct (Z.leb_spec (capacity c) i); [split_and!; [split; [lia|done]..|lia]|].
  simpl. split_and!; [split; [done|lia]..|]. intros _.
  assert (array c !! Z.to_nat i = Some (bucket c (Z.to_nat i))) as Hl.
  { apply list_lookup_lookup_total_lt. lia. }
  exists (bucket c (Z.to_nat i)). split_and!; [done| | |].
  - f_equal. rewrite Hbs. by apply lookup_total_Some, lengths_lookup.
  - destruct (join_insert_split _ _ _ [] Hl) as (pre & post & Hj & _).
    unfold entries in Hnd. rewrite Hj, !fmap_app in Hnd.
    apply NoDup_app in Hnd as (_ & _ & Hnd). by apply NoDup_app in Hnd as (? & _).
  - intros k v. rewrite get_Ret by done. split.
    + intros Hin. rewrite placed_lookup in Hpl. specialize (Hpl _ _ Hl).
      rewrite Forall_forall in Hpl. specialize (Hpl _ Hin). simpl in Hpl.
      assert (index_of c k = Z.to_nat i) as Hi by done.
      split; [|lia]. apply entries_bucket; [done|]. by rewrite Hi.
    + intros [Hin Hi]. apply entries_bucket in Hin; [|done].
      by replace (Z.to_nat i) with (index_of c k) by lia.
Qed.



(** X4: set(k, v) and remove(k) leave get and contains of every other key
    as they were, whether or not the call rehashes. *)
Theorem set_remove_frame c k v k' :
  wf c → k' ≠ k →
  get (set c k v).1 k' = get c k'
  ∧ contains (set c k v).1 k' = contains c k'
  ∧ get (remove c k).1 k' = get c k'
  ∧ contains (remove c k).1 k' = contains c k'.
Proof.
  intros Hwf Hne.
  pose proof (get_remove_ne c k k' Hwf Hne) as Hget.
  split_and!; [by apply get_set_ne|by apply contains_set_ne|done|].
  destruct (contains c k') eqn:Hc; destruct (contains (remove c k).1 k') eqn:Hc'; try done.
  - apply contains_get in Hc'. rewrite Hc' in Hget. symmetry in Hget.
    apply contains_get in Hget. congruence.
  - apply contains_get in Hc. rewrite Hc in Hget. apply contains_get in Hget. congruence.
Qed.

(** [remove] undoes the push of a node. *)
Lemma remove_push_front c k v :
  wf c → remove (push_front c k v) k = (c, true).
Proof.
  intros Hwf.
  pose proof (bucket_lookup c k Hwf) as Hl.
  pose proof (bucket_sizes_lookup c k Hwf) as Hn.
  pose proof (index_of_lt c k Hwf) as Hlt.
  pose proof (bucket_sizes_length c Hwf) as Hlen.
  unfold ChainHash.remove.
  assert (index_of (push_front c k v) k = index_of c k) as -> by done.
  set (i := index_of c k) in *.
  assert (bucket (push_front c k v) i = (k, v) :: bucket c i) as ->.
  { unfold bucket, ChainHash.push_front. simpl. by apply list_lookup_total_insert_eq. }
  simpl. rewrite decide_True by done. fold i.
  rewrite list_lookup_total_insert_eq by lia.
  rewrite !list_insert_insert_eq.
  replace (bucket_sizes c !!! i + 1 - 1) with (bucket_sizes c !!! i) by lia.
  rewrite (list_insert_id (array c)) by done.
  rewrite (list_insert_id (bucket_sizes c)) by (by apply list_lookup_lookup_total_lt; lia).
  f_equal. destruct c as [a n cap bs ub]. simpl in *. f_equal; [lia|].
  destruct (bs !!! i =? 0); lia.
Qed.

(** X5: set of a key that is absent, then remove of the key: remove returns
    true, size() and every get are as before the two calls, and when the set
    did not change the capacity the table is exactly as it was. *)
Theorem set_then_remove c k v :
  wf c → contains c k = false →
  let c' := (set c k v).1 in
  (remove c' k).2 = true
  ∧ size (remove c' k).1 = size c
  ∧ (∀ k', get (remove c' k).1 k' = get c k')
  ∧ (bucket_count c' = bucket_count c → (remove c' k).1 = c).
Proof.
  intros Hwf Hc c'.
  assert (wf c') as Hwf' by by apply wf_set.
  assert (contains c' k = true) as Hc'.
  { destruct (contains c' k) eqn:E; [done|].
    apply contains_get in E. unfold c' in E. by rewrite get_set_eq in E. }
  destruct (set_absent_spec c k v Hwf Hc) as [_ Hp]. fold c' in Hp.
  destruct (remove_present_spec c' k Hwf' Hc') as (Hret & Hwf'' & [v0 Hp'] & _).
  split_and!; [done| | |].
  - unfold size. destruct Hwf'' as (_ & _ & _ & _ & -> & _).
    destruct Hwf as (_ & _ & _ & _ & -> & _).
    apply Permutation_length in Hp, Hp'.
    simpl in *. lia.
  - intros k'. destruct (decide (k' = k)) as [->|Hne].
    + rewrite get_remove_eq by done. symmetry. by apply contains_get.
    + rewrite get_remove_ne by done. by apply get_set_ne.
  - unfold bucket_count, c'. rewrite set_absent by done.
    destruct (overloaded _ _); [|intros _; simpl; by rewrite remove_push_front].
    destruct (push_front_spec c k v Hwf Hc) as [Hwfp _].
    destruct (decide (capacity c = INT_MAX)) as [Hmax|Hne].
    + rewrite rehashing_throws by done. intros _. simpl. by rewrite remove_push_front.
    + pose proof Hwf as ([? ?] & _).
      destruct (rehashing_returns _ Hwfp) as (_ & _ & _ & _ & ->);
        [rewrite capacity_push_front; lia|].
      rewrite capacity_push_front. pose proof (grown_gt (capacity c)). lia.
Qed.

(** X6: a second set(k, v) with the same key and value returns and leaves
    the table as the first one left it. *)
Theorem set_twice c k v :
  wf c → set (set c k v).1 k v = ((set c k v).1, Ret ()).
Proof.
  intros Hwf. set (c' := (set c k v).1).
  assert (wf c') as Hwf' by by apply wf_set.
  pose proof (get_set_eq c k v Hwf) as Hget. fold c' in Hget.
  assert (contains c' k = true) as Hc'.
  { destruct (contains c' k) eqn:E; [done|]. apply contains_get in E. congruence. }
  destruct (set_present c' k v Hc') as (pre & v0 & post & Hb & Hpre & ->).
  assert (v0 = v) as ->.
  { apply get_Ret in Hget; [|done]. apply entries_bucket in Hget; [|done].
    assert ((k, v0) ∈ bucket c' (index_of c' k)) as Hin
      by (rewrite Hb; apply elem_of_app; right; left).
    pose proof Hwf' as (_ & _ & _ & _ & _ & _ & Hnd).
    eapply NoDup_fst_unique; [exact Hnd| |]; by apply entries_bucket. }
  rewrite <- Hb. rewrite list_insert_id by by apply bucket_lookup.
  by destruct c'.
Qed.

(** *** The table as a map *)




(** *** The order of the chains *)

(** What the loops of [rehashing] keep true of the order of the new chains,
    [moved] being the nodes taken from the old chains so far, first to
    last. *)
Definition rehash_order (newCap : Z) (st : list chain * list Z * Z) (moved : chain) : Prop :=
  length st.1.1 = Z.to_nat newCap
  ∧ ∀ j, (j < Z.to_nat newCap)%nat →
      st.1.1 !!! j = reverse (filter (λ n, Z.to_nat (hash n.1 `mod` newCap) = j) moved).

Lemma rehash_node_order newCap st node moved :
  0 < newCap → rehash_order newCap st moved →
  rehash_order newCap (rehash_node hash newCap st node) (moved ++ [node]).
Proof.
  destruct st as [[a bs] ub]. unfold rehash_order, rehash_node, getHashCode. simpl.
  intros Hcap [Hlen Ha].
  set (idx := Z.to_nat (hash node.1 `mod` newCap)).
  assert (idx < length a)%nat as Hidx.
  { rewrite Hlen. unfold idx. pose proof (Z.mod_pos_bound (hash node.1) newCap). lia. }
  split; [by rewrite length_insert|]. intros j Hj.
  rewrite filter_app, reverse_app, filter_cons, filter_nil.
  destruct (decide (idx = j)) as [<-|Hne].
  - rewrite list_lookup_total_insert_eq by done. rewrite decide_True by done.
    rewrite Ha by lia. done.
  - rewrite list_lookup_total_insert_ne by done. rewrite decide_False by done.
    by apply Ha.
Qed.

Lemma rehash_chain_order newCap nodes st moved :
  0 < newCap → rehash_order newCap st moved →
  rehash_order newCap (fold_left (rehash_node hash newCap) nodes st) (moved ++ nodes).
Proof.
  intros Hcap. revert st moved.
  induction nodes as [|node nodes IH]; intros st moved Hinv; simpl.
  - by rewrite app_nil_r.
  - rewrite (cons_middle node), (assoc_L (++)). by apply IH, rehash_node_order.
Qed.

Lemma rehash_array_order newCap (a : list chain) st moved :
  0 < newCap → rehash_order newCap st moved →
  rehash_order newCap
    (fold_left (λ st nodes, fold_left (rehash_node hash newCap) nodes st) a st)
    (moved ++ mjoin a).
Proof.
  intros Hcap. revert st moved.
  induction a as [|nodes a IH]; intros st moved Hinv; simpl.
  - by rewrite app_nil_r.
  - rewrite (assoc_L (++)). by apply IH, rehash_chain_order.
Qed.

(** X8: the chains after a rehash.  Below the largest capacity, the chain
    of bucket j of the rehashed table holds the nodes whose key hashes to j
    under the new capacity, in the reverse of the order in which the old
    table listed them, bucket after bucket. *)
Theorem rehashing_chains c :
  wf c → bucket_count c < INT_MAX →
  let c' := (rehashing c).1 in
  ∀ j, 0 ≤ j < bucket_count c' →
    iterate c' j
    = Ret (reverse (filter (λ n, getHashCode hash n.1 `mod` bucket_count c' = j) (entries c))).
Proof.
  intros Hwf Hlt c' j. unfold bucket_count in *.
  pose proof Hwf as (Hcap & Hlen & _).
  destruct (rehashing_returns c Hwf Hlt) as (_ & _ & _ & _ & Hg). fold c' in Hg.
  pose proof (grown_gt (capacity c)) as Hgt.
  intros Hj. unfold ChainHash.iterate, bucket.
  destruct (Z.ltb_spec j 0); [lia|]. destruct (Z.leb_spec (capacity c') j); [lia|]. simpl.
  f_equal. revert Hj Hg. unfold c', ChainHash.rehashing.
  rewrite rehashing_newCap by done.
  destruct (Z.eqb_spec (capacity c) INT_MAX) as [|_]; [lia|].
  destruct (Z.ltb_spec (grown (capacity c)) 0) as [|_]; [lia|].
  rewrite take_ge by lia.
  pose proof (rehash_array_order (grown (capacity c)) (array c)
                (replicate (Z.to_nat (grown (capacity c))) [],
                 replicate (Z.to_nat (grown (capacity c))) 0, 0) []) as Hinv.
  destruct (fold_left _ _ _) as [[a bs] ub]. simpl. intros Hj _.
  destruct Hinv as [_ Ha]; [lia| |].
  { unfold rehash_order. simpl. split; [by rewrite length_replicate|]. intros i Hi.
    by rewrite lookup_total_replicate_2. }
  simpl in Ha. rewrite Ha by lia. f_equal. unfold entries, getHashCode.
  apply list_filter_iff. intros n.
  pose proof (Z.mod_pos_bound (hash n.1) (grown (capacity c))). lia.
Qed.

(** *** Keys of one hash code *)

Lemma get_run_sets (ks : list K) v c k :
  wf c → k ∈ ks → get (run ((λ k, Set_ k v) <$> ks) c) k = Ret v.
Proof.
  intros Hwf. induction ks as [|k0 ks IH] using rev_ind; [by intros ?%elem_of_nil|].
  rewrite fmap_app, elem_of_app, list_elem_of_singleton. simpl.
  rewrite run_snoc. simpl. intros Hin.
  assert (wf (run ((λ k, Set_ k v) <$> ks) c)) as Hwf' by by apply wf_run.
  destruct (decide (k = k0)) as [->|Hne]; [by apply get_set_eq|].
  rewrite get_set_ne by done. apply IH. by destruct Hin.
Qed.

(** X9: maxColision is a trigger, not a bound.  Keys of one hash code stay
    in one bucket whatever the capacity: after distinct keys of hash code h
    have been set, the bucket of h holds at least that many nodes. *)
Theorem equal_hashes_share_a_bucket c (ks : list K) v h :
  wf c → NoDup ks → ks ≠ [] → (∀ k, k ∈ ks → getHashCode hash k = h) →
  let c' := run ((λ k, Set_ k v) <$> ks) c in
  ∃ n, bucket_size c' (h `mod` bucket_count c') = Ret n ∧ Z.of_nat (length ks) ≤ n.
Proof.
  intros Hwf Hnd Hks Hh c'.
  assert (wf c') as Hwf' by by apply wf_run.
  assert (∃ k0, k0 ∈ ks) as [k0 Hk0].
  { destruct ks as [|k0 ks0]; [done|]. exists k0. left. }
  assert (Z.of_nat (index_of c' k0) = h `mod` bucket_count c') as Hi.
  { unfold ChainHash.index_of. rewrite (Hh k0 Hk0). unfold bucket_count.
    pose proof Hwf' as ([? ?] & _).
    pose proof (Z.mod_pos_bound h (capacity c')). lia. }
  rewrite <- Hi.
  pose proof (index_of_lt c' k0 Hwf') as Hlt.
  pose proof (bucket_sizes_lookup c' k0 Hwf') as Hn.
  pose proof Hwf' as (_ & Hlen & _).
  exists (Z.of_nat (length (bucket c' (index_of c' k0)))). split.
  - unfold ChainHash.bucket_size. rewrite Nat2Z.id.
    destruct (Z.ltb_spec (Z.of_nat (index_of c' k0)) 0); [lia|].
    destruct (Z.leb_spec (capacity c') (Z.of_nat (index_of c' k0))); [lia|]. simpl.
    f_equal. by apply lookup_total_Some.
  - rewrite <- (length_fmap fst (bucket c' (index_of c' k0))).
    apply inj_le, submseteq_length, NoDup_submseteq; [done|].
    intros k Hk. apply list_elem_of_fmap. exists (k, v). split; [done|].
    assert (index_of c' k0 = index_of c' k) as ->.
    { unfold ChainHash.index_of. by rewrite (Hh k0 Hk0), (Hh k Hk). }
    apply entries_bucket; [done|]. apply get_Ret; [done|]. by apply get_run_sets.
Qed.


(** The only exception of [set] is that of the allocation in [rehashing]. *)
Lemma set_result c k v :
  (set c k v).2 = Ret () ∨ (set c k v).2 = Throw bad_array_new_length.
Proof.
  unfold ChainHash.set. destruct (chain_set _ _ _); [by left|].
  destruct (overloaded _ _); [|by left].
  unfold ChainHash.rehashing. destruct (_ <? 0); [by right|].
  destruct (fold_left _ _ _) as [[a bs] ub]. by left.
Qed.

Lemma filter_other_keys l k : k ∉ l.*1 → filter (λ n : K * V, n.1 ≠ k) l = l.
Proof.
  induction l as [|[k' v'] l IH]; [done|]. simpl.
  rewrite not_elem_of_cons. intros [Hne Hl].
  rewrite filter_cons, decide_True by (simpl; congruence). by rewrite IH.
Qed.

(** X11: remove(k) keeps the order of the nodes that stay: every bucket is
    iterated as before, the node of k left out. *)
Theorem remove_keeps_order c k i :
  wf c → 0 ≤ i < bucket_count c →
  ∃ nodes,
    iterate c i = Ret nodes
    ∧ iterate (remove c k).1 i = Ret (filter (λ n, n.1 ≠ k) nodes).
Proof.
  intros Hwf Hi. unfold bucket_count in Hi.
  pose proof Hwf as (Hcap & Hlen & _ & _ & _ & Hpl & Hnd).
  exists (bucket c (Z.to_nat i)). unfold ChainHash.iterate. rewrite capacity_remove.
  destruct (Z.ltb_spec i 0); [lia|]. destruct (Z.leb_spec (capacity c) i); [lia|].
  split; [done|]. simpl. f_equal.
  assert (array c !! Z.to_nat i = Some (bucket c (Z.to_nat i))) as Hl
    by (apply list_lookup_lookup_total_lt; lia).
  assert (Z.to_nat i ≠ index_of c k → k ∉ (bucket c (Z.to_nat i)).*1) as Hother.
  { intros Hne ([k' v'] & -> & Hin)%list_elem_of_fmap.
    rewrite placed_lookup in Hpl. specialize (Hpl _ _ Hl).
    rewrite Forall_forall in Hpl. specialize (Hpl _ Hin). by simpl in Hpl. }
  destruct (contains c k) eqn:Hc.
  - unfold ChainHash.remove.
    destruct (chain_remove k (bucket c (index_of c k))) as [l'|] eqn:Hrm; cycle 1.
    { apply chain_remove_None, chain_contains_get in Hrm. unfold contains in Hc. congruence. }
    apply chain_remove_Some in Hrm as (pre & v0 & post & Hb & -> & Hpre).
    unfold bucket at 1. simpl.
    destruct (decide (Z.to_nat i = index_of c k)) as [Heq|Hne].
    + rewrite Heq, list_lookup_total_insert_eq by (by apply index_of_lt).
      rewrite Hb, filter_app, filter_cons, decide_False by (simpl; tauto).
      rewrite Heq, Hb in Hl.
      destruct (join_insert_split _ _ _ [] Hl) as (P & Q & Hj & _).
      unfold entries in Hnd. rewrite Hj, !fmap_app in Hnd.
      apply NoDup_app in Hnd as (_ & _ & Hnd). apply NoDup_app in Hnd as (Hnd & _).
      rewrite fmap_cons in Hnd. apply NoDup_app in Hnd as (_ & _ & Hnd).
      apply NoDup_cons in Hnd as [Hpost _].
      by rewrite !filter_other_keys.
    + rewrite list_lookup_total_insert_ne by congruence. symmetry.
      by apply filter_other_keys, Hother.
  - rewrite remove_absent by done. simpl. symmetry. apply filter_other_keys.
    intros Hin. assert (k ∈ (entries c).*1) as Hk; [|apply contains_keys in Hk; congruence].
    apply list_elem_of_fmap in Hin as ([k' v'] & -> & Hin).
    apply list_elem_of_fmap. exists (k', v'). split; [done|].
    apply elem_of_join_lookup. eauto.
Qed.

(** X12: set of a key that is absent, when it leaves the capacity alone,
    puts the new node at the head of the chain of the key: the iteration of
    that bucket visits it first and then the nodes it visited before; every
    other bucket is iterated as before. *)
Theorem set_inserts_at_head c k v i :
  wf c → contains c k = false → bucket_count (set c k v).1 = bucket_count c →
  0 ≤ i < bucket_count c →
  ∃ nodes,
    iterate c i = Ret nodes
    ∧ iterate (set c k v).1 i
      = Ret (if decide (i = getHashCode hash k `mod` bucket_count c)
             then (k, v) :: nodes else nodes).
Proof.
  intros Hwf Hc Hcap Hi. unfold bucket_count in *.
  pose proof Hwf as (Hpos & Hlen & _).
  assert ((set c k v).1 = push_front c k v) as ->.
  { revert Hcap. rewrite set_absent by done. destruct (overloaded _ _); [|done].
    destruct (push_front_spec c k v Hwf Hc) as [Hwfp _].
    destruct (decide (capacity c = INT_MAX)) as [Hmax|Hne];
      [by rewrite rehashing_throws|].
    destruct (rehashing_returns _ Hwfp) as (_ & _ & _ & _ & ->);
      [rewrite capacity_push_front; lia|].
    rewrite capacity_push_front. pose proof (grown_gt (capacity c)). lia. }
  exists (bucket c (Z.to_nat i)). unfold ChainHash.iterate. rewrite capacity_push_front.
  destruct (Z.ltb_spec i 0); [lia|]. destruct (Z.leb_spec (capacity c) i); [lia|].
  split; [done|]. simpl. f_equal. unfold bucket at 1, ChainHash.push_front. simpl.
  pose proof (Z.mod_pos_bound (getHashCode hash k) (capacity c)).
  case_decide as Hd.
  - replace (Z.to_nat i) with (index_of c k) by (unfold ChainHash.index_of; lia).
    apply list_lookup_total_insert_eq. by apply index_of_lt.
  - apply list_lookup_total_insert_ne. unfold ChainHash.index_of. lia.
Qed.

(** *** The capacities a table goes through *)

Lemma capacity_set_cases c k v :
  wf c →
  capacity (set c k v).1 = capacity c
  ∨ capacity c < INT_MAX ∧ capacity (set c k v).1 = grown (capacity c).
Proof.
  intros Hwf. destruct (contains c k) eqn:Hc.
  - left. by destruct (set_present_spec c k v Hwf Hc) as (_ & _ & _ & _ & _ & -> & _).
  - rewrite set_absent by done. destruct (overloaded _ _); [|by left].
    destruct (decide (capacity c = INT_MAX)) as [Hmax|Hne].
    + left. by rewrite rehashing_throws.
    + right. pose proof Hwf as ([? ?] & _). split; [lia|].
      destruct (rehashing_capacity (push_front c k v)) as [_ ->];
        [rewrite capacity_push_front; lia|done].
Qed.

(** X13: the capacities of a table.  As long as bucket_count() is at most
    2 ^ 30, it is one less than a power of two times the initial capacity
    plus one: 10, 21, 43, 87, ... for the default capacity. *)
Theorem bucket_count_shape initialCapacity (ops : list op) :
  in_int initialCapacity →
  let c := run ops (new initialCapacity) in
  bucket_count c ≤ 2 ^ 30 →
  ∃ r : nat, bucket_count c + 1 = (bucket_count (new initialCapacity) + 1) * 2 ^ Z.of_nat r.
Proof.
  intros Hint. unfold bucket_count. induction ops as [|o ops IH] using rev_ind.
  - intros _. exists 0%nat. simpl. lia.
  - rewrite run_snoc.
    assert (wf (run ops (new initialCapacity))) as Hwf by by apply wf_run, wf_new.
    pose proof (capacity_step (run ops (new initialCapacity)) o Hwf) as Hle.
    intros Hcap. destruct IH as [r Hr]; [lia|].
    assert (capacity (step (run ops (new initialCapacity)) o)
            = capacity (run ops (new initialCapacity))
            ∨ capacity (step (run ops (new initialCapacity)) o)
              = 2 * capacity (run ops (new initialCapacity)) + 1) as [Heq|Heq].
    { destruct o as [k v|k]; simpl; [|left; apply capacity_remove].
      destruct (capacity_set_cases (run ops (new initialCapacity)) k v Hwf)
        as [Hsame|[Hlt Hgrown]]; [by left|].
      right. revert Hcap. simpl. rewrite Hgrown. unfold grown.
      destruct (Z.ltb_spec (capacity (run ops (new initialCapacity))) (2 ^ 30)); lia. }
    + exists r. by rewrite Heq.
    + exists (S r). rewrite Heq, Nat2Z.inj_succ, Z.pow_succ_r by lia. lia.
Qed.
End facts.

(** *** Tables of integers *)

(** [std::hash] of an integer key: the key as a [size_t]. *)
Definition hash_int (k : Z) : Z := k `mod` 2 ^ 64.

Local Abbreviation table := (@ChainHash.t Z Z).

(** Four keys of bucket 1 of 3, which force a rehash to 7 buckets, and a
    fifth key. *)
Definition sample : table :=
  ChainHash.run hash_int
    [Set_ 1 10; Set_ 4 40; Set_ 7 70; Set_ 10 100; Set_ 2 20] (ChainHash.new 3).

Lemma set_get_contains_witness :
  ChainHash.wf hash_int sample
  ∧ ChainHash.get hash_int (ChainHash.set hash_int sample 5 50).1 5 = Ret 50
  ∧ ChainHash.contains hash_int (ChainHash.set hash_int sample 5 50).1 5 = true.
Proof.
  split; [apply (bool_decide_unpack _); by vm_compute|].
  apply set_get_contains. apply (bool_decide_unpack _). by vm_compute.
Defined.

Lemma rehash_preserves_content_witness :
  in_int 3
  ∧ let c : table :=
      ChainHash.run hash_int
        ((λ kv, Set_ kv.1 kv.2) <$> [(1, 10); (4, 40); (7, 70); (10, 100); (1, 11)])
        (ChainHash.new 3) in
    ChainHash.get hash_int c 1 = Ret 11
    ∧ ChainHash.get hash_int c 7 = Ret 70
    ∧ ChainHash.get hash_int c 2 = Throw out_of_range
    ∧ size c = 4.
Proof.
  split; [unfold in_int, INT_MIN, INT_MAX; lia|].
  intros c.
  destruct (rehash_preserves_content hash_int 3 [(1, 10); (4, 40); (7, 70); (10, 100); (1, 11)])
    as (Hget & _ & Hsize & _); [unfold in_int, INT_MIN, INT_MAX; lia|].
  fold c in Hget, Hsize.
  split_and!; [by rewrite Hget..|by rewrite Hsize].
Defined.


Lemma set_rehash_trigger_witness :
  ChainHash.wf hash_int (ChainHash.new 3 : table)
  ∧ ChainHash.set hash_int (ChainHash.new 3 : table) 1 10
    ≠ ChainHash.rehashing hash_int (ChainHash.push_front hash_int (ChainHash.new 3) 1 10).
Proof.
  split; [apply (bool_decide_unpack _); by vm_compute|].
  destruct (set_rehash_trigger hash_int (ChainHash.new 3 : table) 1 10)
    as (_ & _ & _ & _ & _ & Hiff & _); [apply (bool_decide_unpack _); by vm_compute|].
  intros Heq. apply Hiff in Heq. by vm_compute in Heq.
Defined.

Lemma remove_present_then_absent_witness :
  ChainHash.wf hash_int sample
  ∧ ChainHash.contains hash_int sample 7 = true
  ∧ (ChainHash.remove hash_int sample 7).2 = true
  ∧ ChainHash.get hash_int (ChainHash.remove hash_int sample 7).1 7 = Throw out_of_range.
Proof.
  split; [apply (bool_decide_unpack _); by vm_compute|].
  split; [by vm_compute|].
  destruct (remove_present_then_absent hash_int sample 7) as [Hpresent _];
    [apply (bool_decide_unpack _); by vm_compute|].
  destruct Hpresent as (Hret & _ & Hget & _); [by vm_compute|]. by split.
Defined.

Lemma set_overwrite_witness :
  ChainHash.wf hash_int sample
  ∧ ChainHash.contains hash_int sample 7 = true
  ∧ ChainHash.get hash_int (ChainHash.set hash_int sample 7 71).1 7 = Ret 71
  ∧ size (ChainHash.set hash_int sample 7 71).1 = size sample.
Proof.
  split; [apply (bool_decide_unpack _); by vm_compute|].
  split; [by vm_compute|].
  destruct (set_overwrite hash_int sample 7 71) as (_ & Hget & Hsize & _);
    [apply (bool_decide_unpack _); by vm_compute|by vm_compute|].
  by split.
Defined.

Lemma bucket_count_monotone_witness :
  in_int 3
  ∧ bucket_count (ChainHash.run hash_int [Set_ 1 10; Set_ 4 40] (ChainHash.new 3 : table))
    ≤ bucket_count sample
  ∧ ChainHash.wf hash_int sample
  ∧ bucket_count sample < INT_MAX
  ∧ (ChainHash.rehashing hash_int sample).2 = Ret ()
  ∧ bucket_count sample < bucket_count (ChainHash.rehashing hash_int sample).1.
Proof.
  split; [unfold in_int, INT_MIN, INT_MAX; lia|].
  destruct (bucket_count_monotone hash_int 3
              [Set_ 1 10; Set_ 4 40] [Set_ 7 70; Set_ 10 100; Set_ 2 20]) as [Hle Hrehash];
    [unfold in_int, INT_MIN, INT_MAX; lia|].
  split; [exact Hle|].
  split; [apply (bool_decide_unpack _); by vm_compute|]. split; [by vm_compute|].
  destruct (Hrehash sample) as (_ & _ & _ & Hgrows & _);
    [apply (bool_decide_unpack _); by vm_compute|].
  apply Hgrows. by vm_compute.
Defined.

Lemma remove_absent_unchanged_witness :
  ChainHash.contains hash_int sample 3 = false
  ∧ ChainHash.remove hash_int sample 3 = (sample, false).
Proof.
  split; [by vm_compute|].
  destruct (remove_absent_unchanged hash_int sample 3) as (Hret & Hsame & _);
    [by vm_compute|].
  destruct (ChainHash.remove hash_int sample 3) as [c b]. simpl in *. by subst.
Defined.

Lemma index_of_int (c : table) j :
  0 ≤ j < capacity c → capacity c ≤ INT_MAX →
  ChainHash.index_of hash_int c j = Z.to_nat j.
Proof.
  intros Hj Hc. unfold ChainHash.index_of, getHashCode, hash_int, INT_MAX in *.
  by rewrite (Z.mod_small j (2 ^ 64)), Z.mod_small by lia.
Qed.

(** The keys [0 .. n - 1], each alone in the bucket of its number: as long as
    [n / cap] does not exceed the float 0.8 no call ends in a rehash. *)
Lemma fill_distinct_buckets_nat cap (m : nat) :
  0 < cap ≤ INT_MAX → Z.of_nat m ≤ cap →
  2 ^ 54 * Z.of_nat m ≤ (13421773 * 2 ^ 30 + 1) * cap →
  let c : table :=
    ChainHash.run hash_int ((λ j, Set_ j 0) <$> seqZ 0 (Z.of_nat m)) (ChainHash.new cap) in
  ChainHash.wf hash_int c
  ∧ capacity c = cap
  ∧ usedBuckets c = Z.of_nat m
  ∧ ∀ j, Z.of_nat m ≤ j < cap →
      bucket_sizes c !!! Z.to_nat j = 0 ∧ ChainHash.contains hash_int c j = false.
Proof.
  intros Hcap.
  assert (in_int cap) as Hint by (unfold in_int, INT_MIN, INT_MAX in *; lia).
  induction m as [|m IH]; intros Hn Hfill c.
  - split_and!; [by apply wf_new|apply capacity_new; lia|done|].
    intros j Hj. split; [|apply contains_new].
    apply (counters_new (K:=Z) (V:=Z)); lia.
  - destruct IH as (Hwf & Hc & Hub & Hfree); [lia..|].
    unfold c. rewrite seqZ_S, fmap_app, Z.add_0_l. cbn [fmap list_fmap].
    rewrite run_snoc. cbn [ChainHash.step].
    match goal with |- context [ChainHash.run hash_int ?ops (ChainHash.new cap)] =>
      set (c0 := ChainHash.run hash_int ops (ChainHash.new cap) : table) in * end.
    destruct (Hfree (Z.of_nat m)) as [Hbs0 Hc0]; [lia|].
    assert (ChainHash.index_of hash_int c0 (Z.of_nat m) = Z.to_nat (Z.of_nat m)) as Hi
      by (apply index_of_int; lia).
    destruct (set_absent_quiet hash_int c0 (Z.of_nat m) 0
                (Z.to_nat (Z.of_nat m)) 0 (Z.of_nat (S m)) Hwf Hc0 Hi Hbs0)
      as (Hwf' & Hc' & _ & Hub' & Hset).
    { unfold maxColision. lia. }
    { rewrite Hub. simpl. lia. }
    { destruct (Float.gt _ _) eqn:Hgt; [|done].
      apply FloatFacts.fill_exceeds_spec in Hgt; lia. }
    split_and!; [done|lia|done|].
    intros j Hj. split.
    + rewrite Hset. unfold ChainHash.push_front. simpl.
      rewrite list_lookup_total_insert_ne by (rewrite Hi; lia). apply Hfree. lia.
    + rewrite contains_set_ne by (done || lia). apply Hfree. lia.
Qed.

Lemma fill_distinct_buckets cap n :
  0 < cap ≤ INT_MAX → 0 ≤ n ≤ cap →
  2 ^ 54 * n ≤ (13421773 * 2 ^ 30 + 1) * cap →
  let c : table :=
    ChainHash.run hash_int ((λ j, Set_ j 0) <$> seqZ 0 n) (ChainHash.new cap) in
  ChainHash.wf hash_int c
  ∧ capacity c = cap
  ∧ usedBuckets c = n
  ∧ ∀ j, n ≤ j < cap →
      bucket_sizes c !!! Z.to_nat j = 0 ∧ ChainHash.contains hash_int c j = false.
Proof.
  intros Hcap Hn Hfill.
  pose proof (fill_distinct_buckets_nat cap (Z.to_nat n) Hcap) as Hnat.
  rewrite Z2Nat.id in Hnat by lia. apply Hnat; [lia|exact Hfill].
Qed.

(** The other half of C4 fails as well: 13421773 keys in buckets of their own
    out of [2 ^ 24].  At the last call the fill factor is above 0.8, and not
    above the float 0.8: the call does not end in a rehash. *)
Lemma fill_above_0_8_without_rehash :
  let c : table :=
    ChainHash.run hash_int ((λ j, Set_ j 0) <$> seqZ 0 13421772) (ChainHash.new 16777216) in
  ChainHash.contains hash_int c 13421772 = false
  ∧ bucket_count c = 16777216
  ∧ (ChainHash.set hash_int c 13421772 0).2 = Ret ()
  ∧ bucket_count (ChainHash.set hash_int c 13421772 0).1 = 16777216
  ∧ usedBuckets (ChainHash.set hash_int c 13421772 0).1 = 13421773
  ∧ 4 * 16777216 < 5 * 13421773.
Proof.
  intros c.
  destruct (fill_distinct_buckets 16777216 13421772) as (Hwf & Hc & Hub & Hfree);
    [unfold INT_MAX; lia..|].
  fold c in Hwf, Hc, Hub, Hfree.
  destruct (Hfree 13421772) as [Hbs0 Hc0]; [lia|].
  assert (ChainHash.index_of hash_int c 13421772 = Z.to_nat 13421772) as Hi
    by (apply index_of_int; rewrite Hc; unfold INT_MAX; lia).
  destruct (set_absent_quiet hash_int c 13421772 0
              (Z.to_nat 13421772) 0 13421773 Hwf Hc0 Hi Hbs0)
    as (_ & Hc' & _ & Hub' & Hset).
  { unfold maxColision. lia. }
  { rewrite Hub. reflexivity. }
  { rewrite Hc. exact (proj2 FloatFacts.fill_above_0_8_not_exceeding). }
  unfold bucket_count.
  split_and!; [exact Hc0|exact Hc|rewrite Hset; reflexivity
              |rewrite Hc'; exact Hc|exact Hub'|lia].
Qed.

(** C4 as stated fails: a table of [2 ^ 30] buckets, four keys of bucket 0.
    The fourth set finds its bucket of size 3, so that the rehash is
    triggered, and the capacity moves to [2 ^ 30 + 1], not to
    [2 * 2 ^ 30 + 1]. *)
Lemma rehash_capacity_not_doubled :
  let c : table :=
    ChainHash.run hash_int
      [Set_ 0 0; Set_ 1073741824 0; Set_ 2147483648 0] (ChainHash.new 1073741824) in
  bucket_count c = 1073741824
  ∧ ChainHash.contains hash_int c 3221225472 = false
  ∧ bucket_size c 0 = Ret 3
  ∧ ChainHash.set hash_int c 3221225472 0
    = ChainHash.rehashing hash_int (ChainHash.push_front hash_int c 3221225472 0)
  ∧ bucket_count (ChainHash.set hash_int c 3221225472 0).1 = 1073741825
  ∧ bucket_count (ChainHash.set hash_int c 3221225472 0).1 ≠ 2 * bucket_count c + 1.
Proof.
  intros c.
  destruct (fourth_collision_grows_by_one hash_int 1073741824 0%nat
              0 1073741824 2147483648 3221225472 0)
    as (Hcap & Hc & Hsize & Hset & _ & Hgrown).
  - unfold INT_MAX. lia.
  - apply (bool_decide_unpack _). by vm_compute.
  - repeat constructor.
  - by vm_compute.
  - fold c in Hcap, Hc, Hsize, Hset, Hgrown.
    split_and!; [exact Hcap|exact Hc|exact Hsize|exact Hset|exact Hgrown|].
    rewrite Hgrown, Hcap. lia.
Qed.

(** *** The further properties on tables of integers *)

Ltac by_evaluation := apply (bool_decide_unpack _); by vm_compute.

Lemma bucket_iteration_witness :
  ChainHash.wf hash_int sample
  ∧ (bucket_size sample 7 = Throw out_of_range ↔ 7 < 0 ∨ bucket_count sample ≤ 7)
  ∧ (bucket_size sample 1 = Throw out_of_range ↔ 1 < 0 ∨ bucket_count sample ≤ 1).
Proof.
  split; [by_evaluation|]. split.
  - destruct (bucket_iteration hash_int sample 7) as (Hsize & _); [by_evaluation|].
    exact Hsize.
  - destruct (bucket_iteration hash_int sample 1) as (Hsize & _); [by_evaluation|].
    exact Hsize.
Defined.



Lemma set_remove_frame_witness :
  ChainHash.wf hash_int sample
  ∧ 7 ≠ 5
  ∧ ChainHash.get hash_int (ChainHash.set hash_int sample 5 50).1 7
    = ChainHash.get hash_int sample 7.
Proof.
  split; [by_evaluation|]. split; [lia|].
  destruct (set_remove_frame hash_int sample 5 50 7) as (Hget & _); [by_evaluation|lia|].
  exact Hget.
Defined.

Lemma set_then_remove_witness :
  ChainHash.wf hash_int sample
  ∧ ChainHash.contains hash_int sample 5 = false
  ∧ (ChainHash.remove hash_int (ChainHash.set hash_int sample 5 50).1 5).2 = true
  ∧ size (ChainHash.remove hash_int (ChainHash.set hash_int sample 5 50).1 5).1 = size sample.
Proof.
  split; [by_evaluation|]. split; [by vm_compute|].
  destruct (set_then_remove hash_int sample 5 50) as (Hret & Hsize & _);
    [by_evaluation|by vm_compute|].
  split; [exact Hret|exact Hsize].
Defined.

Lemma set_twice_witness :
  ChainHash.wf hash_int sample
  ∧ ChainHash.set hash_int (ChainHash.set hash_int sample 5 50).1 5 50
    = ((ChainHash.set hash_int sample 5 50).1, Ret ()).
Proof.
  split; [by_evaluation|]. apply set_twice. by_evaluation.
Defined.

Lemma set_inserts_at_head_witness :
  ChainHash.wf hash_int (ChainHash.new 3 : table)
  ∧ ChainHash.contains hash_int (ChainHash.new 3 : table) 1 = false
  ∧ bucket_count (ChainHash.set hash_int (ChainHash.new 3 : table) 1 10).1
    = bucket_count (ChainHash.new 3 : table)
  ∧ 0 ≤ 1 < bucket_count (ChainHash.new 3 : table)
  ∧ ∃ nodes,
      iterate (ChainHash.new 3 : table) 1 = Ret nodes
      ∧ iterate (ChainHash.set hash_int (ChainHash.new 3 : table) 1 10).1 1
        = Ret (if decide (1 = getHashCode hash_int 1 `mod` bucket_count (ChainHash.new 3 : table))
               then (1, 10) :: nodes else nodes).
Proof.
  split; [by_evaluation|]. split; [by vm_compute|]. split; [by vm_compute|].
  split; [by vm_compute|].
  apply set_inserts_at_head; [by_evaluation|by vm_compute..].
Defined.

Lemma remove_keeps_order_witness :
  ChainHash.wf hash_int sample
  ∧ 0 ≤ 1 < bucket_count sample
  ∧ ∃ nodes,
      iterate sample 1 = Ret nodes
      ∧ iterate (ChainHash.remove hash_int sample 1).1 1 = Ret (filter (λ n, n.1 ≠ 1) nodes).
Proof.
  split; [by_evaluation|]. split; [by vm_compute|].
  apply remove_keeps_order; [by_evaluation|by vm_compute].
Defined.

Lemma rehashing_chains_witness :
  ChainHash.wf hash_int sample
  ∧ bucket_count sample < INT_MAX
  ∧ iterate (ChainHash.rehashing hash_int sample).1 1
    = Ret (reverse
             (filter
                (λ n, getHashCode hash_int n.1
                        `mod` bucket_count (ChainHash.rehashing hash_int sample).1 = 1)
                (entries sample))).
Proof.
  split; [by_evaluation|]. split; [by vm_compute|].
  apply (rehashing_chains hash_int sample); [by_evaluation|by vm_compute..].
Defined.

Lemma equal_hashes_share_a_bucket_witness :
  ChainHash.wf (λ _ : Z, 7) (ChainHash.new 3 : table)
  ∧ NoDup [1; 2; 3; 4; 5]
  ∧ [1; 2; 3; 4; 5] ≠ []
  ∧ (∀ k, k ∈ [1; 2; 3; 4; 5] → getHashCode (λ _ : Z, 7) k = 7)
  ∧ let c : table :=
      ChainHash.run (λ _ : Z, 7) ((λ k, Set_ k 0) <$> [1; 2; 3; 4; 5]) (ChainHash.new 3) in
    ∃ n, bucket_size c (7 `mod` bucket_count c) = Ret n ∧ Z.of_nat (length [1; 2; 3; 4; 5]) ≤ n.
Proof.
  split; [by_evaluation|]. split; [by_evaluation|]. split; [done|]. split; [done|].
  apply (equal_hashes_share_a_bucket (λ _ : Z, 7) (ChainHash.new 3 : table));
    [by_evaluation|by_evaluation|done|done].
Defined.


Lemma bucket_count_shape_witness :
  in_int 3
  ∧ bucket_count sample ≤ 2 ^ 30
  ∧ ∃ r : nat, bucket_count sample + 1 = (bucket_count (ChainHash.new 3 : table) + 1) * 2 ^ Z.of_nat r.
Proof.
  split; [unfold in_int, INT_MIN, INT_MAX; lia|]. split; [by vm_compute|].
  apply (bucket_count_shape hash_int 3
           [Set_ 1 10; Set_ 4 40; Set_ 7 70; Set_ 10 100; Set_ 2 20]);
    [unfold in_int, INT_MIN, INT_MAX; lia|by vm_compute].
Defined.

(** C8 as stated fails: a table of [2 ^ 31 - 1] buckets, four keys of bucket
    0.  The fourth set finds its bucket of size 3, so that the rehash is
    triggered; the allocation of the rehash throws, and the capacity is not
    increased. *)
Lemma rehash_at_largest_capacity_keeps_capacity :
  let c : table :=
    ChainHash.run hash_int
      [Set_ 0 0; Set_ 2147483647 0; Set_ 4294967294 0] (ChainHash.new 2147483647) in
  bucket_count c = 2147483647
  ∧ ChainHash.contains hash_int c 6442450941 = false
  ∧ bucket_size c 0 = Ret 3
  ∧ ChainHash.set hash_int c 6442450941 0
    = ChainHash.rehashing hash_int (ChainHash.push_front hash_int c 6442450941 0)
  ∧ (ChainHash.set hash_int c 6442450941 0).2 = Throw bad_array_new_length
  ∧ bucket_count (ChainHash.set hash_int c 6442450941 0).1 = bucket_count c
  ∧ ¬ bucket_count c < bucket_count (ChainHash.set hash_int c 6442450941 0).1.
Proof.
  intros c.
  destruct (fourth_collision_at_largest_capacity hash_int 2147483647 0%nat
              0 2147483647 4294967294 6442450941 0)
    as (Hcap & Hc & Hsize & Hset & Hthrows & Hsame).
  - reflexivity.
  - apply (bool_decide_unpack _). by vm_compute.
  - repeat constructor.
  - by vm_compute.
  - fold c in Hcap, Hc, Hsize, Hset, Hthrows, Hsame.
    split_and!; [exact Hcap|exact Hc|exact Hsize|exact Hset|exact Hthrows| |].
    + rewrite Hsame, Hcap. reflexivity.
    + rewrite Hsame, Hcap. lia.
Qed.

End ChainHashFacts.

(** ** Facts on the bag of words *)

Module P2Facts.
Import ChainHash ChainHashFacts P2.
(** *** Characters *)

(** A digit or a lower-case letter. *)
Definition isdigit_or_lower (c : ascii) : bool :=
  let n := nat_of_ascii c in
  (((48 <=? n) && (n <=? 57)) || ((97 <=? n) && (n <=? 122)))%nat.

(** [isupper] of the "C" locale. *)
Definition isupper (c : ascii) : bool :=
  let n := nat_of_ascii c in ((65 <=? n) && (n <=? 90))%nat.

Ltac each_char c := destruct c as [[] [] [] [] [] [] [] []]; try by vm_compute.

Lemma isalnum_tolower c : isalnum (tolower c) = isalnum c.
Proof. each_char c. Qed.

Lemma isspace_tolower c : isspace (tolower c) = isspace c.
Proof. each_char c. Qed.

Lemma tolower_tolower c : tolower (tolower c) = tolower c.
Proof. each_char c. Qed.

Lemma isupper_tolower c : isupper (tolower c) = false.
Proof. each_char c. Qed.

Lemma tolower_not_upper c : isupper c = false → tolower c = c.
Proof. each_char c. Qed.

Lemma isalnum_not_space c : isalnum c = true → isspace c = false.
Proof. each_char c. Qed.

Lemma isalnum_lower c : isalnum c = true → isdigit_or_lower (tolower c) = true.
Proof. each_char c. Qed.

Lemma isdigit_or_lower_alnum c :
  isdigit_or_lower c = true → isalnum c = true ∧ isupper c = false.
Proof. each_char c. Qed.

(** *** Strings as lists of characters *)

Local Abbreviation chars := list_ascii_of_string.

Lemma chars_app (s1 s2 : string) : chars (s1 +:+ s2) = chars s1 ++ chars s2.
Proof. induction s1 as [|c s1 IH]; simpl; [done|]. by rewrite IH. Qed.

Lemma chars_inj (s1 s2 : string) : chars s1 = chars s2 → s1 = s2.
Proof.
  intros Heq. rewrite <- (string_of_list_ascii_of_string s1).
  rewrite <- (string_of_list_ascii_of_string s2). by rewrite Heq.
Qed.

Lemma chars_toLowerCase str : chars (toLowerCase str) = tolower <$> chars str.
Proof. induction str as [|c str IH]; simpl; [done|]. by rewrite IH. Qed.

Lemma chars_erase_not_alnum word :
  chars (erase_not_alnum word) = filter (λ c, isalnum c = true) (chars word).
Proof.
  induction word as [|c word IH]; simpl; [done|].
  rewrite filter_cons. destruct (isalnum c) eqn:Hc; simpl; by rewrite IH.
Qed.

Lemma append_nil_l (s : string) : EmptyString +:+ s = s.
Proof. done. Qed.

Lemma append_cons c (s1 s2 : string) : String c s1 +:+ s2 = String c (s1 +:+ s2).
Proof. done. Qed.

Lemma append_nil_r (s : string) : s +:+ EmptyString = s.
Proof. apply chars_inj. by rewrite chars_app, app_nil_r. Qed.

Lemma append_assoc (s1 s2 s3 : string) : (s1 +:+ s2) +:+ s3 = s1 +:+ s2 +:+ s3.
Proof. apply chars_inj. by rewrite !chars_app, (assoc_L (++)). Qed.

(** *** [toLowerCase] *)

Lemma toLowerCase_idemp str : toLowerCase (toLowerCase str) = toLowerCase str.
Proof.
  apply chars_inj. rewrite !chars_toLowerCase, <- list_fmap_compose.
  apply list_fmap_ext. intros _ c _. apply tolower_tolower.
Qed.

Lemma toLowerCase_not_upper str :
  Forall (λ c, isupper c = false) (chars str) → toLowerCase str = str.
Proof.
  intros Hstr. apply chars_inj. rewrite chars_toLowerCase.
  induction Hstr as [|c l Hc Hl IH]; [done|].
  by rewrite fmap_cons, tolower_not_upper, IH.
Qed.

Lemma toLowerCase_app (s1 s2 : string) :
  toLowerCase (s1 +:+ s2) = toLowerCase s1 +:+ toLowerCase s2.
Proof.
  apply chars_inj. by rewrite chars_toLowerCase, !chars_app, fmap_app, !chars_toLowerCase.
Qed.

(** X14: toLowerCase keeps the length, is idempotent, leaves no upper-case
    letter, and leaves a string without upper-case letters as it is. *)
Theorem toLowerCase_lowers str :
  String.length (toLowerCase str) = String.length str
  ∧ toLowerCase (toLowerCase str) = toLowerCase str
  ∧ Forall (λ c, isupper c = false) (chars (toLowerCase str))
  ∧ (Forall (λ c, isupper c = false) (chars str) → toLowerCase str = str).
Proof.
  split_and!; [| apply toLowerCase_idemp | | apply toLowerCase_not_upper].
  - induction str as [|c str IH]; simpl; [done|]. by rewrite IH.
  - rewrite chars_toLowerCase. apply Forall_fmap, Forall_true. intros c.
    apply isupper_tolower.
Qed.

(** *** [tokenize] *)

(** What [ss >> word] hands over at white space and at the end of the
    text: the word that was read, if there is one. *)
Definition flush (word : string) : list string :=
  match word with
  | EmptyString => []
  | _ => [word]
  end.

(** The body of the loop of [tokenize]. *)
Definition token (word : string) : list string :=
  match erase_not_alnum word with
  | EmptyString => []
  | word => [toLowerCase word]
  end.

Lemma tokenize_unfold text : tokenize text = flat_map token (extract text EmptyString).
Proof. done. Qed.

Lemma extract_nil word : extract EmptyString word = flush word.
Proof. by destruct word. Qed.

Lemma extract_cons c rest word :
  extract (String c rest) word
  = if isspace c then flush word ++ extract rest EmptyString
    else extract rest (word +:+ String c EmptyString).
Proof. simpl. destruct (isspace c); [|done]. by destruct word. Qed.

Lemma join_chars_flush word : mjoin (chars <$> flush word) = chars word.
Proof. destruct word; [done|]. simpl. by rewrite app_nil_r. Qed.

(** The words that are read hold the characters of the text that are not
    white space, in order. *)
Lemma extract_chars text word :
  mjoin (chars <$> extract text word)
  = chars word ++ filter (λ c, isspace c = false) (chars text).
Proof.
  revert word. induction text as [|c text IH]; intros word.
  - rewrite extract_nil, join_chars_flush. simpl. by rewrite app_nil_r.
  - rewrite extract_cons. cbn [list_ascii_of_string]. rewrite filter_cons.
    destruct (isspace c) eqn:Hc; simpl.
    + by rewrite fmap_app, join_app, join_chars_flush, IH.
    + rewrite IH, chars_app. simpl. by rewrite <- (assoc_L (++)).
Qed.

Lemma join_chars_token word :
  mjoin (chars <$> token word) = tolower <$> filter (λ c, isalnum c = true) (chars word).
Proof.
  unfold token. rewrite <- chars_erase_not_alnum.
  destruct (erase_not_alnum word) as [|c w]; [done|].
  cbn [fmap list_fmap mjoin list_join]. by rewrite app_nil_r, chars_toLowerCase.
Qed.

Lemma elem_of_flat_map {A B} (f : A → list B) (xs : list A) y :
  y ∈ flat_map f xs ↔ ∃ x, x ∈ xs ∧ y ∈ f x.
Proof.
  rewrite list_elem_of_In, in_flat_map. setoid_rewrite list_elem_of_In. done.
Qed.

Lemma elem_of_token w word :
  w ∈ token word → w = toLowerCase (erase_not_alnum word) ∧ erase_not_alnum word ≠ EmptyString.
Proof.
  unfold token. destruct (erase_not_alnum word) as [|c s]; [by intros ?%elem_of_nil|].
  by intros ->%list_elem_of_singleton.
Qed.

(** A token is not empty and holds digits and lower-case letters only. *)
Lemma token_spec w word :
  w ∈ token word → w ≠ EmptyString ∧ Forall (λ c, isdigit_or_lower c = true) (chars w).
Proof.
  intros [-> Hne]%elem_of_token. split.
  - by destruct (erase_not_alnum word).
  - rewrite chars_toLowerCase, chars_erase_not_alnum. apply Forall_fmap.
    apply Forall_forall. intros c [Hc _]%list_elem_of_filter. by apply isalnum_lower.
Qed.

Lemma tokenize_elem text w :
  w ∈ tokenize text →
  w ≠ EmptyString ∧ Forall (λ c, isdigit_or_lower c = true) (chars w).
Proof.
  rewrite tokenize_unfold, elem_of_flat_map. intros (word & _ & Hw). by eapply token_spec.
Qed.

Lemma tokenize_join_chars text :
  mjoin (chars <$> tokenize text)
  = tolower <$> filter (λ c, isalnum c = true) (chars text).
Proof.
  rewrite tokenize_unfold.
  assert (∀ ws, mjoin (chars <$> flat_map token ws)
                = tolower <$> filter (λ c, isalnum c = true) (mjoin (chars <$> ws))) as Hws.
  { induction ws as [|w ws IH]; [done|]. simpl.
    by rewrite fmap_app, join_app, join_chars_token, IH, filter_app, fmap_app. }
  rewrite Hws, extract_chars. simpl. f_equal.
  rewrite list_filter_filter. apply list_filter_iff. intros c. split; [tauto|].
  intros Hc. split; [done|]. by apply isalnum_not_space.
Qed.

(** X15: every word that tokenize returns is non-empty and made of digits
    and lower-case letters only. *)
Theorem tokenize_tokens text w :
  w ∈ tokenize text →
  w ≠ EmptyString ∧ Forall (λ c, isdigit_or_lower c = true) (chars w).
Proof. apply tokenize_elem. Qed.

(** X16: tokenize drops and changes nothing else: the characters of its
    words, one word after the other, are the alphanumeric characters of the
    text, in order, in lower case. *)
Theorem tokenize_chars text :
  mjoin (chars <$> tokenize text)
  = tolower <$> filter (λ c, isalnum c = true) (chars text).
Proof. apply tokenize_join_chars. Qed.

(** X17: tokenize returns no word exactly when the text has no alphanumeric
    character: the empty text, white space, punctuation. *)
Theorem tokenize_nil_iff text :
  tokenize text = [] ↔ Forall (λ c, isalnum c = false) (chars text).
Proof.
  pose proof (tokenize_join_chars text) as Hc. split.
  - intros Hnil. rewrite Hnil in Hc. simpl in Hc.
    symmetry in Hc. apply fmap_nil_inv in Hc.
    apply Forall_forall. intros c Hin. destruct (isalnum c) eqn:E; [|done].
    assert (c ∈ filter (λ c, isalnum c = true) (chars text)) as Hf
      by by apply list_elem_of_filter.
    rewrite Hc in Hf. by apply elem_of_nil in Hf.
  - intros Hall. destruct (tokenize text) as [|w ws] eqn:Htok; [done|].
    assert (w ∈ tokenize text) as Hw by (rewrite Htok; left).
    destruct (tokenize_elem text w Hw) as [Hne _].
    replace (filter (λ c, isalnum c = true) (chars text)) with (@nil ascii) in Hc.
    + simpl in Hc. apply app_eq_nil in Hc as [Hc _]. destruct w; done.
    + clear Hc. induction Hall as [|c l Hc Hl IH]; [done|].
      rewrite filter_cons, decide_False by congruence. done.
Qed.

Lemma extract_app a ws b word :
  isspace ws = true →
  extract (a +:+ String ws b) word = extract a word ++ extract b EmptyString.
Proof.
  intros Hws. revert word. induction a as [|c a IH]; intros word.
  - change (extract (String ws b) word = extract EmptyString word ++ extract b EmptyString).
    rewrite extract_cons, Hws. reflexivity.
  - change (extract (String c (a +:+ String ws b)) word
            = extract (String c a) word ++ extract b EmptyString).
    rewrite !extract_cons.
    destruct (isspace c); [|apply IH]. by rewrite IH, (assoc_L (++)).
Qed.

(** X18: white space separates.  The words of two texts joined by a
    white-space character are the words of the first followed by the words
    of the second. *)
Theorem tokenize_app a ws b :
  isspace ws = true → tokenize (a +:+ String ws b) = tokenize a ++ tokenize b.
Proof.
  intros Hws. rewrite !tokenize_unfold, extract_app by done. apply flat_map_app.
Qed.

Lemma flush_toLowerCase word : flush (toLowerCase word) = toLowerCase <$> flush word.
Proof. by destruct word. Qed.

Lemma extract_toLowerCase text word :
  extract (toLowerCase text) (toLowerCase word) = toLowerCase <$> extract text word.
Proof.
  revert word. induction text as [|c text IH]; intros word.
  - cbn [toLowerCase]. by rewrite !extract_nil, flush_toLowerCase.
  - cbn [toLowerCase]. rewrite !extract_cons, isspace_tolower.
    destruct (isspace c).
    + by rewrite fmap_app, flush_toLowerCase, <- IH.
    + rewrite <- IH. by rewrite toLowerCase_app.
Qed.

Lemma erase_not_alnum_toLowerCase word :
  erase_not_alnum (toLowerCase word) = toLowerCase (erase_not_alnum word).
Proof.
  induction word as [|c word IH]; [done|]. simpl. rewrite isalnum_tolower.
  destruct (isalnum c); simpl; by rewrite IH.
Qed.

Lemma token_toLowerCase word : token (toLowerCase word) = token word.
Proof.
  unfold token. rewrite erase_not_alnum_toLowerCase.
  destruct (erase_not_alnum word) as [|c w]; [done|].
  change (toLowerCase (String c w)) with (String (tolower c) (toLowerCase w)) at 1.
  cbv iota. f_equal.
  change (String (tolower c) (toLowerCase w)) with (toLowerCase (String c w)).
  apply toLowerCase_idemp.
Qed.

(** X19: tokenize does not see case: the text in lower case has the same
    words. *)
Theorem tokenize_toLowerCase text : tokenize (toLowerCase text) = tokenize text.
Proof.
  rewrite !tokenize_unfold.
  change EmptyString with (toLowerCase EmptyString) at 1. rewrite extract_toLowerCase.
  induction (extract text EmptyString) as [|w ws IH]; [done|].
  rewrite fmap_cons. simpl. by rewrite token_toLowerCase, IH.
Qed.

Lemma extract_no_space w word :
  Forall (λ c, isspace c = false) (chars w) → extract w word = flush (word +:+ w).
Proof.
  revert word. induction w as [|c w IH]; intros word Hw.
  - by rewrite extract_nil, append_nil_r.
  - cbn [list_ascii_of_string] in Hw. apply Forall_cons in Hw as [Hc Hw].
    rewrite extract_cons, Hc, IH by done. by rewrite append_assoc.
Qed.

Lemma erase_not_alnum_id w :
  Forall (λ c, isalnum c = true) (chars w) → erase_not_alnum w = w.
Proof.
  induction w as [|c w IH]; [done|]. cbn [list_ascii_of_string].
  intros [Hc Hw]%Forall_cons. simpl. by rewrite Hc, IH.
Qed.

(** X20: a word that tokenize returns is tokenized to itself. *)
Theorem tokenize_fixes_tokens text w : w ∈ tokenize text → tokenize w = [w].
Proof.
  intros [Hne Hw]%tokenize_elem. rewrite tokenize_unfold.
  rewrite extract_no_space; cycle 1.
  { eapply Forall_impl; [exact Hw|]. intros c Hc. simpl in Hc.
    by apply isalnum_not_space, isdigit_or_lower_alnum. }
  change (EmptyString +:+ w) with w. destruct w as [|c w]; [done|].
  cbn [flush flat_map]. rewrite app_nil_r. unfold token.
  rewrite erase_not_alnum_id; cycle 1.
  { eapply Forall_impl; [exact Hw|]. intros c' Hc. simpl in Hc.
    by apply isdigit_or_lower_alnum. }
  f_equal. apply toLowerCase_not_upper.
  eapply Forall_impl; [exact Hw|]. intros c' Hc. simpl in Hc.
  by apply isdigit_or_lower_alnum.
Qed.

(** X21: punctuation does not separate.  A text without white space is one
    word at most: its alphanumeric characters, in lower case. *)
Theorem tokenize_no_space text :
  Forall (λ c, isspace c = false) (chars text) →
  tokenize text
  = match erase_not_alnum text with
    | EmptyString => []
    | word => [toLowerCase word]
    end.
Proof.
  intros Htext. rewrite tokenize_unfold, extract_no_space by done.
  change (EmptyString +:+ text) with text. destruct text as [|c text]; [done|].
  cbn [flush flat_map]. by rewrite app_nil_r.
Qed.
Section facts.

Variable hash : string → Z.
Variable uniqueWords : list string → list string.

(** A set holds each of its words once, and no other. *)
Hypothesis uniqueWords_NoDup : ∀ tokens, NoDup (uniqueWords tokens).
Hypothesis uniqueWords_elem : ∀ tokens word, word ∈ uniqueWords tokens ↔ word ∈ tokens.

Local Abbreviation table := (@ChainHash.t string (list Z)).
Local Abbreviation get := (ChainHash.get hash).
Local Abbreviation set := (ChainHash.set hash).
Local Abbreviation contains := (ChainHash.contains hash).
Local Abbreviation wf := (ChainHash.wf hash).
Local Abbreviation add_word := (P2.add_word hash).
Local Abbreviation add_document := (P2.add_document hash uniqueWords).
Local Abbreviation add_documents := (P2.add_documents hash uniqueWords).
Local Abbreviation bagOfWords := (P2.bagOfWords hash uniqueWords).

Implicit Types (c : table) (word w : string) (docIndex : Z).

(** The documents recorded for a word, none for a word that is absent. *)
Definition docs_of c word : list Z :=
  match get c word with
  | Ret docs => docs
  | Throw _ => []
  end.

Lemma add_word_spec docIndex c word :
  wf c → capacity c < INT_MAX →
  ∃ c', add_word docIndex (Ret c) word = Ret c'
    ∧ wf c'
    ∧ capacity c' ≤ 2 * capacity c + 1
    ∧ docs_of c' word = docs_of c word ++ [wrap32 docIndex]
    ∧ ∀ w, w ≠ word → docs_of c' w = docs_of c w.
Proof.
  intros Hwf Hlt. unfold P2.add_word, docs_of.
  destruct (contains c word) eqn:Hc.
  - destruct (get c word) as [docs|e] eqn:Hget.
    2:{ apply get_Throw in Hget as He. subst e. apply contains_get in Hget. congruence. }
    pose proof (set_returns hash c word (docs ++ [wrap32 docIndex]) Hwf Hlt) as [Hret Hcap].
    pose proof (wf_set hash c word (docs ++ [wrap32 docIndex]) Hwf) as Hwf'.
    pose proof (get_set_eq hash c word (docs ++ [wrap32 docIndex]) Hwf) as Hsame.
    pose proof (get_set_ne hash c word (docs ++ [wrap32 docIndex])) as Hother.
    destruct (set c word _) as [c' r]. simpl in *. subst r.
    exists c'. split_and!; [done..|by rewrite Hsame|].
    intros w Hw. by rewrite Hother.
  - apply contains_get in Hc as Hget. rewrite Hget.
    pose proof (set_returns hash c word ([] ++ [wrap32 docIndex]) Hwf Hlt) as [Hret Hcap].
    pose proof (wf_set hash c word ([] ++ [wrap32 docIndex]) Hwf) as Hwf'.
    pose proof (get_set_eq hash c word ([] ++ [wrap32 docIndex]) Hwf) as Hsame.
    pose proof (get_set_ne hash c word ([] ++ [wrap32 docIndex])) as Hother.
    destruct (set c word _) as [c' r]. simpl in *. subst r.
    exists c'. split_and!; [done..|by rewrite Hsame|].
    intros w Hw. by rewrite Hother.
Qed.

Lemma add_words_spec docIndex (ws : list string) c :
  NoDup ws → wf c → (capacity c + 1) * 2 ^ Z.of_nat (length ws) ≤ 2 ^ 30 →
  ∃ c', fold_left (add_word docIndex) ws (Ret c) = Ret c'
    ∧ wf c'
    ∧ capacity c' + 1 ≤ (capacity c + 1) * 2 ^ Z.of_nat (length ws)
    ∧ ∀ w, docs_of c' w
           = docs_of c w ++ (if decide (w ∈ ws) then [wrap32 docIndex] else []).
Proof.
  revert c. induction ws as [|w0 ws IH]; intros c Hnd Hwf Hcap.
  - exists c. simpl. split_and!; [done|done|lia|].
    intros w. by rewrite app_nil_r.
  - apply NoDup_cons in Hnd as [Hw0 Hnd].
    pose proof Hwf as ([Hpos _] & _).
    rewrite length_cons, Nat2Z.inj_succ, Z.pow_succ_r in Hcap |- * by lia.
    assert (0 < 2 ^ Z.of_nat (length ws)) as Hpow by (apply Z.pow_pos_nonneg; lia).
    destruct (add_word_spec docIndex c w0 Hwf)
      as (c1 & Hadd & Hwf1 & Hcap1 & Hsame & Hother);
      [unfold INT_MAX; nia|].
    destruct (IH c1 Hnd Hwf1) as (c' & Hfold & Hwf' & Hcap' & Hdocs); [nia|].
    exists c'. cbn [fold_left]. rewrite Hadd. split_and!; [done|done|nia|].
    intros w. rewrite Hdocs. destruct (decide (w = w0)) as [->|Hne].
    + rewrite Hsame, (decide_False (P := w0 ∈ ws)) by done.
      rewrite decide_True by left. by rewrite app_nil_r.
    + rewrite Hother by done. f_equal. apply decide_ext.
      rewrite elem_of_cons. naive_solver.
Qed.

(** The number of tokens of the documents: no more [set] calls are made. *)
Definition total_tokens (documentos : list string) : nat :=
  sum_list ((λ documento, length (tokenize documento)) <$> documentos).

Lemma add_documents_spec (documentos : list string) docIndex c :
  wf c → (capacity c + 1) * 2 ^ Z.of_nat (total_tokens documentos) ≤ 2 ^ 30 →
  ∃ c', add_documents docIndex documentos (Ret c) = Ret c'
    ∧ wf c'
    ∧ ∀ w, docs_of c' w = docs_of c w ++ (wrap32 <$> postings docIndex documentos w).
Proof.
  revert docIndex c.
  induction documentos as [|documento rest IH]; intros docIndex c Hwf Hcap.
  - exists c. simpl. split_and!; [done..|]. intros w. by rewrite app_nil_r.
  - unfold total_tokens in Hcap. rewrite fmap_cons in Hcap. simpl in Hcap.
    fold (total_tokens rest) in Hcap.
    rewrite Nat2Z.inj_add, Z.pow_add_r in Hcap by lia.
    set (ws := uniqueWords (tokenize documento)).
    assert (length ws ≤ length (tokenize documento))%nat as Hlen.
    { apply submseteq_length, NoDup_submseteq; [apply uniqueWords_NoDup|].
      intros w. apply uniqueWords_elem. }
    pose proof Hwf as ([Hpos _] & _).
    assert (0 < 2 ^ Z.of_nat (length ws)) as Hpw by (apply Z.pow_pos_nonneg; lia).
    assert (0 < 2 ^ Z.of_nat (total_tokens rest)) as Hpr by (apply Z.pow_pos_nonneg; lia).
    assert (2 ^ Z.of_nat (length ws) ≤ 2 ^ Z.of_nat (length (tokenize documento))) as Hle
      by (apply Z.pow_le_mono_r; lia).
    destruct (add_words_spec docIndex ws c) as (c1 & Hfold & Hwf1 & Hcap1 & Hdocs1);
      [apply uniqueWords_NoDup|done|nia|].
    destruct (IH (docIndex + 1) c1 Hwf1) as (c' & Hrest & Hwf' & Hdocs); [nia|].
    exists c'. cbn [P2.add_documents]. unfold P2.add_document. fold ws. rewrite Hfold.
    split_and!; [done..|]. intros w. rewrite Hdocs, Hdocs1, <- (assoc_L (++)).
    f_equal. cbn [postings]. rewrite fmap_app. f_equal.
    rewrite (decide_ext _ (w ∈ tokenize documento)) by apply uniqueWords_elem.
    by destruct (decide _).
Qed.

Lemma docs_of_get c word docs : docs_of c word = docs → docs ≠ [] → get c word = Ret docs.
Proof. unfold docs_of. destruct (get c word); congruence. Qed.

(** C9: on the four documents of [main] the builder returns a table in
    which "casa" maps to [0,1,2,3], "grande" to [0,2], "gato" to [1] and
    "el" to [1,3], and in which the list of every word is in ascending
    order.  This holds for every hash function and every order in which
    the set of the words of a document is iterated. *)
Theorem bagOfWords_main :
  ∃ bow, bagOfWords documentos = Ret bow
    ∧ get bow "casa" = Ret [0; 1; 2; 3]
    ∧ get bow "grande" = Ret [0; 2]
    ∧ get bow "gato" = Ret [1]
    ∧ get bow "el" = Ret [1; 3]
    ∧ ∀ word docs, get bow word = Ret docs → StronglySorted Z.lt docs.
Proof.
  destruct (add_documents_spec documentos 0 (ChainHash.new 13)) as (bow & Hbow & Hwf & Hdocs).
  { apply wf_new. unfold in_int, INT_MIN, INT_MAX. lia. }
  { by vm_compute. }
  assert (∀ w, docs_of (ChainHash.new 13 : table) w = []) as Hnew.
  { intros w. unfold docs_of.
    by rewrite (proj1 (contains_get hash _ w) (contains_new hash 13 w)). }
  exists bow. split; [done|].
  split_and!; try (apply docs_of_get; [by rewrite Hdocs, Hnew|done]).
  intros word docs Hget.
  assert (docs = docs_of bow word) as -> by (unfold docs_of; by rewrite Hget).
  rewrite Hdocs, Hnew. simpl.
  repeat case_decide; simpl; repeat constructor; lia.
Qed.


(** *** The builder on any documents *)

Lemma add_word_Throw docIndex e (ws : list string) :
  fold_left (add_word docIndex) ws (Throw e) = Throw e.
Proof. induction ws as [|w ws IH]; [done|]. exact IH. Qed.

Lemma add_documents_Throw docIndex e (documentos : list string) :
  add_documents docIndex documentos (Throw e) = Throw e.
Proof.
  revert docIndex. induction documentos as [|d rest IH]; intros docIndex; [done|].
  cbn [P2.add_documents]. unfold P2.add_document. rewrite add_word_Throw. apply IH.
Qed.

(** A word that the table holds has a document. *)
Definition listed c : Prop := ∀ w, contains c w = true → docs_of c w ≠ [].

Lemma add_word_result docIndex c word :
  wf c → listed c →
  match add_word docIndex (Ret c) word with
  | Ret c' =>
      wf c' ∧ listed c'
      ∧ contains c' word = true
      ∧ docs_of c' word = docs_of c word ++ [wrap32 docIndex]
      ∧ ∀ w, w ≠ word → docs_of c' w = docs_of c w ∧ contains c' w = contains c w
  | Throw e => e = bad_array_new_length
  end.
Proof.
  intros Hwf Hlisted.
  assert (
    match set c word (docs_of c word ++ [wrap32 docIndex]) with
    | (c', Ret _) =>
        wf c' ∧ listed c'
        ∧ contains c' word = true
        ∧ docs_of c' word = docs_of c word ++ [wrap32 docIndex]
        ∧ ∀ w, w ≠ word → docs_of c' w = docs_of c w ∧ contains c' w = contains c w
    | (_, Throw e) => e = bad_array_new_length
    end) as Hset.
  { set (docs := docs_of c word ++ [wrap32 docIndex]).
    pose proof (set_result hash c word docs) as Hres.
    pose proof (wf_set hash c word docs Hwf) as Hwf'.
    pose proof (get_set_eq hash c word docs Hwf) as Hsame.
    pose proof (get_set_ne hash c word docs) as Hother.
    pose proof (contains_set_ne hash c word docs) as Hcont.
    destruct (set c word docs) as [c' r]. simpl in *.
    destruct Hres as [->| ->]; [|done].
    assert (contains c' word = true) as Hc'.
    { destruct (contains c' word) eqn:E; [done|]. apply contains_get in E. congruence. }
    assert (docs_of c' word = docs) as Hdocs by (unfold docs_of; by rewrite Hsame).
    split_and!; [done| |done|done|].
    - intros w. destruct (decide (w = word)) as [->|Hne].
      + intros _. rewrite Hdocs. unfold docs. by destruct (docs_of c word).
      + rewrite Hcont by done. unfold docs_of. rewrite Hother by done. apply Hlisted.
    - intros w Hne. unfold docs_of. rewrite Hother, Hcont by done. done. }
  unfold P2.add_word. unfold docs_of in Hset at 1.
  destruct (contains c word) eqn:Hc.
  - destruct (get c word) as [docs|e] eqn:Hget.
    2:{ apply get_Throw in Hget as He. subst e. apply contains_get in Hget. congruence. }
    destruct (set c word _) as [c' [[]|e]]; done.
  - apply contains_get in Hc as Hget. rewrite Hget in Hset.
    destruct (set c word _) as [c' [[]|e]]; done.
Qed.

Lemma add_words_result docIndex (ws : list string) c :
  NoDup ws → wf c → listed c →
  match fold_left (add_word docIndex) ws (Ret c) with
  | Ret c' =>
      wf c' ∧ listed c'
      ∧ ∀ w, docs_of c' w
             = docs_of c w ++ (if decide (w ∈ ws) then [wrap32 docIndex] else [])
  | Throw e => e = bad_array_new_length
  end.
Proof.
  revert c. induction ws as [|w0 ws IH]; intros c Hnd Hwf Hlisted.
  - simpl. split_and!; [done..|]. intros w. by rewrite app_nil_r.
  - apply NoDup_cons in Hnd as [Hw0 Hnd]. cbn [fold_left].
    pose proof (add_word_result docIndex c w0 Hwf Hlisted) as Hadd.
    destruct (add_word docIndex (Ret c) w0) as [c1|e]; [|by rewrite add_word_Throw].
    destruct Hadd as (Hwf1 & Hlisted1 & _ & Hsame & Hother).
    specialize (IH c1 Hnd Hwf1 Hlisted1).
    destruct (fold_left _ ws (Ret c1)) as [c'|e]; [|done].
    destruct IH as (Hwf' & Hlisted' & Hdocs). split_and!; [done..|].
    intros w. rewrite Hdocs. destruct (decide (w = w0)) as [->|Hne].
    + rewrite Hsame, (decide_False (P := w0 ∈ ws)) by done.
      rewrite decide_True by left. by rewrite app_nil_r.
    + destruct (Hother w Hne) as [-> _]. f_equal. apply decide_ext.
      rewrite elem_of_cons. naive_solver.
Qed.

Lemma add_documents_result (documentos : list string) docIndex c :
  wf c → listed c →
  match add_documents docIndex documentos (Ret c) with
  | Ret c' =>
      wf c' ∧ listed c'
      ∧ ∀ w, docs_of c' w = docs_of c w ++ (wrap32 <$> postings docIndex documentos w)
  | Throw e => e = bad_array_new_length
  end.
Proof.
  revert docIndex c.
  induction documentos as [|documento rest IH]; intros docIndex c Hwf Hlisted.
  - simpl. split_and!; [done..|]. intros w. by rewrite app_nil_r.
  - cbn [P2.add_documents]. unfold P2.add_document.
    pose proof (add_words_result docIndex (uniqueWords (tokenize documento)) c
                  (uniqueWords_NoDup _) Hwf Hlisted) as Hadd.
    destruct (fold_left _ _ (Ret c)) as [c1|e]; [|by rewrite add_documents_Throw].
    destruct Hadd as (Hwf1 & Hlisted1 & Hdocs1).
    specialize (IH (docIndex + 1) c1 Hwf1 Hlisted1).
    destruct (add_documents _ rest (Ret c1)) as [c'|e]; [|done].
    destruct IH as (Hwf' & Hlisted' & Hdocs). split_and!; [done..|].
    intros w. rewrite Hdocs, Hdocs1, <- (assoc_L (++)).
    f_equal. cbn [postings]. rewrite fmap_app. f_equal.
    rewrite (decide_ext _ (w ∈ tokenize documento)) by apply uniqueWords_elem.
    by destruct (decide _).
Qed.

(** [postings] lists the positions of the documents that hold the word. *)
Lemma elem_of_postings docIndex (documentos : list string) word i :
  i ∈ postings docIndex documentos word
  ↔ docIndex ≤ i
    ∧ ∃ documento, documentos !! Z.to_nat (i - docIndex) = Some documento
                   ∧ word ∈ tokenize documento.
Proof.
  revert docIndex. induction documentos as [|d rest IH]; intros docIndex.
  - simpl. split; [by intros ?%elem_of_nil|]. by intros (_ & ? & ? & _).
  - cbn [postings]. rewrite elem_of_app, IH. split.
    + intros [Hi|(Hle & documento & Hl & Hin)].
      * case_decide as Hd; [|by apply elem_of_nil in Hi].
        apply list_elem_of_singleton in Hi as ->. split; [lia|].
        exists d. by rewrite Z.sub_diag.
      * split; [lia|]. exists documento. split; [|done].
        replace (Z.to_nat (i - docIndex)) with (S (Z.to_nat (i - (docIndex + 1)))) by lia.
        done.
    + intros (Hle & documento & Hl & Hin).
      destruct (decide (i = docIndex)) as [->|Hne].
      * left. rewrite Z.sub_diag in Hl. injection Hl as ->.
        rewrite decide_True by done. left.
      * right. split; [lia|]. exists documento. split; [|done].
        replace (Z.to_nat (i - docIndex)) with (S (Z.to_nat (i - (docIndex + 1)))) in Hl
          by lia.
        done.
Qed.

Lemma postings_sorted docIndex (documentos : list string) word :
  StronglySorted Z.lt (postings docIndex documentos word).
Proof.
  revert docIndex. induction documentos as [|d rest IH]; intros docIndex; [constructor|].
  cbn [postings]. case_decide; [|apply IH]. simpl. constructor; [apply IH|].
  apply Forall_forall. intros i [Hi _]%elem_of_postings. lia.
Qed.

Lemma wrap32_postings (documentos : list string) word :
  Z.of_nat (length documentos) ≤ 2 ^ 31 →
  wrap32 <$> postings 0 documentos word = postings 0 documentos word.
Proof.
  intros Hlen. rewrite <- (list_fmap_id (postings 0 documentos word)) at 2.
  apply list_fmap_ext. intros _ i Hi%list_elem_of_lookup_2.
  apply elem_of_postings in Hi as (Hle & documento & Hl%lookup_lt_Some & _).
  unfold id. apply wrap32_small. unfold in_int, INT_MIN, INT_MAX. lia.
Qed.

Lemma docs_of_new word : docs_of (ChainHash.new 13 : table) word = [].
Proof.
  unfold docs_of. by rewrite (proj1 (contains_get hash _ word) (contains_new hash 13 word)).
Qed.

(** X22: bagOfWords on any documents (at most 2 ^ 31 of them, the index
    being cast to [int]), for every hash function and every iteration order
    of the sets.  If it returns, the table holds exactly the words of the
    documents, size() is their number, and get of a word is the strictly
    ascending list of the indices of the documents that contain it.  If it
    throws, the exception is that of the allocation in rehashing, and the
    documents have more than 26 words in all, repetitions counted. *)
Theorem bagOfWords_index (documentos : list string) :
  Z.of_nat (length documentos) ≤ 2 ^ 31 →
  match bagOfWords documentos with
  | Ret bow =>
      size bow = Z.of_nat (length (remove_dups (flat_map tokenize documentos)))
      ∧ ∀ word,
          (contains bow word = true
           ↔ ∃ documento, documento ∈ documentos ∧ word ∈ tokenize documento)
          ∧ (contains bow word = true →
             ∃ docs,
               get bow word = Ret docs
               ∧ StronglySorted Z.lt docs
               ∧ ∀ i, i ∈ docs
                      ↔ 0 ≤ i
                        ∧ ∃ documento, documentos !! Z.to_nat i = Some documento
                                       ∧ word ∈ tokenize documento)
  | Throw e =>
      e = bad_array_new_length ∧ 2 ^ 30 < 14 * 2 ^ Z.of_nat (total_tokens documentos)
  end.
Proof.
  intros Hlen. unfold P2.bagOfWords.
  assert (wf (ChainHash.new 13 : table)) as Hwf0
    by (apply wf_new; unfold in_int, INT_MIN, INT_MAX; lia).
  assert (listed (ChainHash.new 13 : table)) as Hl0.
  { intros w Hw. by rewrite (contains_new hash 13 w) in Hw. }
  pose proof (add_documents_result documentos 0 _ Hwf0 Hl0) as Hres.
  destruct (add_documents 0 documentos (Ret (ChainHash.new 13))) as [bow|e] eqn:Hbow.
  - destruct Hres as (Hwf & Hlisted & Hdocs).
    assert (∀ word, docs_of bow word = postings 0 documentos word) as Hpost.
    { intros word. by rewrite Hdocs, docs_of_new, wrap32_postings. }
    assert (∀ word, contains bow word = true
                    ↔ ∃ documento, documento ∈ documentos ∧ word ∈ tokenize documento)
      as Hcont.
    { intros word. split.
      - intros Hc%Hlisted. rewrite Hpost in Hc.
        destruct (postings 0 documentos word) as [|i l] eqn:Hp; [done|].
        assert (i ∈ postings 0 documentos word) as Hi by (rewrite Hp; left).
        apply elem_of_postings in Hi as (_ & documento & Hd%list_elem_of_lookup_2 & Hin).
        eauto.
      - intros (documento & [j Hj]%list_elem_of_lookup & Hin).
        assert (Z.of_nat j ∈ postings 0 documentos word) as Hi.
        { apply elem_of_postings. split; [lia|]. exists documento.
          by rewrite Z.sub_0_r, Nat2Z.id. }
        rewrite <- Hpost in Hi. unfold docs_of in Hi.
        destruct (contains bow word) eqn:E; [done|].
        apply contains_get in E. rewrite E in Hi. by apply elem_of_nil in Hi. }
    split.
    + pose proof Hwf as (_ & _ & _ & _ & Hn & _ & Hnd). unfold size. rewrite Hn.
      rewrite <- (length_fmap fst). f_equal. apply Permutation_length.
      apply NoDup_Permutation; [done|apply NoDup_remove_dups|].
      intros w. rewrite <- (contains_keys hash), Hcont, elem_of_remove_dups by done.
      by rewrite elem_of_flat_map.
    + intros word. split; [apply Hcont|]. intros Hc.
      exists (postings 0 documentos word). split_and!.
      * rewrite <- Hpost. unfold docs_of. destruct (get bow word) as [docs|e] eqn:Hget; [done|].
        apply get_Throw in Hget as He. subst e. apply contains_get in Hget. congruence.
      * apply postings_sorted.
      * intros i. rewrite elem_of_postings. by rewrite Z.sub_0_r.
  - split; [done|].
    destruct (Z.le_gt_cases (14 * 2 ^ Z.of_nat (total_tokens documentos)) (2 ^ 30))
      as [Hle|Hgt]; [|lia].
    destruct (add_documents_spec documentos 0 (ChainHash.new 13) Hwf0) as (c' & Hc' & _).
    { exact Hle. }
    congruence.
Qed.

(** *** [printBagOfWords] *)

(** What is written for a list of nodes. *)
Definition print_nodes (nodes : list (string * list Z)) : string :=
  foldr (λ node out, print_node node +:+ out) EmptyString nodes.

Lemma print_nodes_app nodes1 nodes2 :
  print_nodes (nodes1 ++ nodes2) = print_nodes nodes1 +:+ print_nodes nodes2.
Proof.
  induction nodes1 as [|node nodes1 IH]; [done|].
  cbn [app print_nodes foldr]. fold (print_nodes (nodes1 ++ nodes2)).
  fold (print_nodes nodes1). by rewrite IH, append_assoc.
Qed.

Lemma print_chain nodes out :
  fold_left (λ out node, out +:+ print_node node) nodes out = out +:+ print_nodes nodes.
Proof.
  revert out. induction nodes as [|node nodes IH]; intros out.
  - by rewrite append_nil_r.
  - cbn [fold_left print_nodes foldr]. fold (print_nodes nodes).
    by rewrite IH, append_assoc.
Qed.

Lemma print_buckets c (n : nat) out :
  wf c → (n ≤ length (array c))%nat →
  fold_left (print_bucket c) (seqZ 0 (Z.of_nat n)) (Ret out)
  = Ret (out +:+ print_nodes (mjoin (take n (array c)))).
Proof.
  intros Hwf. pose proof Hwf as (Hcap & Hlen & Hbs & _).
  induction n as [|n IH]; intros Hn.
  - simpl. by rewrite append_nil_r.
  - rewrite seqZ_S, fold_left_app, IH, Z.add_0_l by lia.
    assert (array c !! n = Some (array c !!! n)) as Hl
      by (apply list_lookup_lookup_total_lt; lia).
    rewrite (take_S_r _ _ _ Hl), join_app, print_nodes_app, <- append_assoc.
    cbn [fold_left print_bucket]. unfold ChainHash.bucket_size, ChainHash.iterate, bucket.
    destruct (Z.ltb_spec (Z.of_nat n) 0); [lia|].
    destruct (Z.leb_spec (capacity c) (Z.of_nat n)); [lia|]. cbn [orb].
    rewrite Nat2Z.id, Hbs, (lookup_total_Some _ _ _ (lengths_lookup _ _ _ Hl)).
    simpl. rewrite app_nil_r.
    destruct (Z.ltb_spec 0 (Z.of_nat (length (array c !!! n)))).
    + by rewrite print_chain.
    + destruct (array c !!! n); [|simpl in *; lia]. by rewrite append_nil_r.
Qed.

(** X23: printBagOfWords never throws.  Between the opening and the closing
    brace it writes one line for each word of the table and no other: the
    lines of nodes that hold every key once, a pair (word, docs) being among
    them exactly when get(word) returns docs; their number is size(). *)
Theorem printBagOfWords_lines bow :
  wf bow →
  ∃ nodes,
    printBagOfWords bow
    = Ret ("{" +:+ newline +:+ print_nodes nodes +:+ "}" +:+ newline)
    ∧ Z.of_nat (length nodes) = size bow
    ∧ NoDup nodes.*1
    ∧ ∀ word docs, (word, docs) ∈ nodes ↔ get bow word = Ret docs.
Proof.
  intros Hwf. pose proof Hwf as (Hcap & Hlen & _ & _ & Hn & _ & Hnd).
  exists (entries bow). split_and!; [|done|done|].
  - unfold P2.printBagOfWords, bucket_count.
    rewrite <- (Z2Nat.id (capacity bow)) by lia.
    rewrite print_buckets, <- Hlen, take_ge by (done || lia).
    by rewrite !append_assoc.
  - intros word docs. symmetry. by apply get_Ret.
Qed.
End facts.

Lemma bagOfWords_main_witness :
  (∀ tokens : list string, NoDup (remove_dups tokens))
  ∧ (∀ (tokens : list string) word, word ∈ remove_dups tokens ↔ word ∈ tokens)
  ∧ ∃ bow, P2.bagOfWords hash_bytes remove_dups documentos = Ret bow
      ∧ ChainHash.get hash_bytes bow "casa" = Ret [0; 1; 2; 3]
      ∧ ChainHash.get hash_bytes bow "grande" = Ret [0; 2]
      ∧ ChainHash.get hash_bytes bow "gato" = Ret [1]
      ∧ ChainHash.get hash_bytes bow "el" = Ret [1; 3].
Proof.
  split; [apply NoDup_remove_dups|]. split; [apply elem_of_remove_dups|].
  destruct (bagOfWords_main hash_bytes remove_dups) as (bow & Hbow & H1 & H2 & H3 & H4 & _);
    [apply NoDup_remove_dups|apply elem_of_remove_dups|].
  exists bow. by split_and!.
Defined.


Lemma tokenize_tokens_witness :
  "mundo"%string ∈ tokenize "Hola, MUNDO!"
  ∧ "mundo"%string ≠ EmptyString
  ∧ Forall (λ c, isdigit_or_lower c = true) (list_ascii_of_string "mundo").
Proof.
  split; [apply (bool_decide_unpack _); by vm_compute|].
  apply (tokenize_tokens "Hola, MUNDO!"). apply (bool_decide_unpack _). by vm_compute.
Defined.

Lemma tokenize_app_witness :
  isspace " " = true
  ∧ tokenize ("La casa" +:+ String " " "es grande") = tokenize "La casa" ++ tokenize "es grande".
Proof. split; [reflexivity|]. apply tokenize_app. reflexivity. Defined.

Lemma tokenize_fixes_tokens_witness :
  "mundo"%string ∈ tokenize "Hola, MUNDO!" ∧ tokenize "mundo" = ["mundo"%string].
Proof.
  split; [apply (bool_decide_unpack _); by vm_compute|].
  apply (tokenize_fixes_tokens "Hola, MUNDO!"). apply (bool_decide_unpack _). by vm_compute.
Defined.

Lemma bagOfWords_index_witness :
  (∀ tokens : list string, NoDup (remove_dups tokens))
  ∧ (∀ (tokens : list string) word, word ∈ remove_dups tokens ↔ word ∈ tokens)
  ∧ Z.of_nat (length documentos) ≤ 2 ^ 31
  ∧ match P2.bagOfWords hash_bytes remove_dups documentos with
    | Ret bow =>
        size bow = Z.of_nat (length (remove_dups (flat_map tokenize documentos)))
    | Throw e => e = bad_array_new_length
    end.
Proof.
  split; [apply NoDup_remove_dups|]. split; [apply elem_of_remove_dups|].
  split; [by vm_compute|].
  pose proof (bagOfWords_index hash_bytes remove_dups
                NoDup_remove_dups elem_of_remove_dups documentos) as Hindex.
  destruct (P2.bagOfWords hash_bytes remove_dups documentos) as [bow|e].
  - apply Hindex. by vm_compute.
  - apply Hindex. by vm_compute.
Defined.

Lemma printBagOfWords_lines_witness :
  let bow :=
    ChainHash.run hash_bytes
      [Set_ "casa"%string [0; 1; 2; 3]; Set_ "gato"%string [1]] (ChainHash.new 13) in
  ChainHash.wf hash_bytes bow
  ∧ ∃ nodes,
      printBagOfWords bow = Ret ("{" +:+ newline +:+ print_nodes nodes +:+ "}" +:+ newline)
      ∧ Z.of_nat (length nodes) = size bow.
Proof.
  intros bow. split; [apply (bool_decide_unpack _); by vm_compute|].
  destruct (printBagOfWords_lines hash_bytes bow) as (nodes & Hout & Hlen & _);
    [apply (bool_decide_unpack _); by vm_compute|].
  exists nodes. split; [exact Hout|exact Hlen].
Defined.

Lemma tokenize_no_space_witness :
  Forall (λ c, isspace c = false) (list_ascii_of_string "foo-bar,42")
  ∧ tokenize "foo-bar,42" = ["foobar42"%string].
Proof.
  split; [apply (bool_decide_unpack _); by vm_compute|].
  apply (tokenize_no_space "foo-bar,42"). apply (bool_decide_unpack _). by vm_compute.
Defined.
End P2Facts.
